(** * Relaxed deliveries problem and its heuristics

    A shallow embedding of [deliveries/relaxed_deliveries_problem.py] and
    [deliveries/deliveries_heuristics.py].

    Conventions of the embedding:
    - Python floats (fuel, distances, costs) are represented by the rationals
      [Q], their sums, differences and comparisons taken exactly; [np.inf]
      is a separate value.  The one product of the code, [fuel * 1000000] in
      [fuel_as_int], is truncated to an integer and so depends on how the
      double product is rounded and on whether it overflows: it is the
      parameter [float_mul], of which [Double.double_mul] is the IEEE 754
      binary64 instance.  Infinite and NaN inputs are not represented.
    - [frozenset]/[set] of junctions is [gset Junction]; iterating a set is
      iterating [elements] of it.
    - the distances cache, a [dict] keyed by [frozenset] pairs, is a [gmap]
      keyed by [gset Junction]; methods using it pass the cache explicitly.
    - a failing [assert] is the value [Raised AssertionError].
    - a generator is the finite sequence of the values it yields, ended by
      normal exhaustion or by the exception that escapes its body. *)

From Stdlib Require Import QArith Qabs Lqa DecimalString DecimalZ DecimalPos.
From stdpp Require Import gmap list strings.

Local Open Scope string_scope.

(** ** Exceptions and generators *)

Inductive exn : Set := AssertionError | OverflowError.

Inductive result (A : Type) : Type :=
| Ok (a : A)
| Raised (e : exn).
Arguments Ok {A} a.
Arguments Raised {A} e.

(** What a caller observes when it drains a generator. *)
Inductive generated (A : Type) : Type :=
| StopIteration
| Yield (a : A) (rest : generated A)
| Abort (e : exn).
Arguments StopIteration {A}.
Arguments Yield {A} a rest.
Arguments Abort {A} e.

Fixpoint yielded {A} (g : generated A) : list A :=
  match g with
  | StopIteration => []
  | Yield a rest => a :: yielded rest
  | Abort _ => []
  end.

Fixpoint escaped {A} (g : generated A) : option exn :=
  match g with
  | StopIteration => None
  | Yield _ rest => escaped rest
  | Abort e => Some e
  end.

(** [int(x)] on a finite float: truncation towards zero. *)
Definition int_of_float (x : Q) : Z := Z.quot (Qnum x) (Z.pos (Qden x)).

(** [int(x)] on the result of a float operation, [None] standing for an
    infinity: [int(float('inf'))] raises [OverflowError]. *)
Definition int_of_double (x : option Q) : result Z :=
  match x with
  | Some finite => Ok (int_of_float finite)
  | None => Raised OverflowError
  end.

(** The value returned by a heuristic: a float, possibly [np.inf]. *)
Inductive float_value : Set :=
| Finite (x : Q)
| np_inf.

Section Model.

Context {Junction : Type} `{!EqDecision Junction, !Countable Junction}.

(** [Junction.calc_air_distance_from(self, other)], of [framework.ways]. *)
Variable calc_air_distance_from : Junction -> Junction -> Q.

(** The builtin [hash], applied to the tuple a state hashes. *)
Variable hash : Junction * gset Junction * Z -> Z.

(** The product of two floats: [Some] of the rounded product when it is
    finite, [None] when it overflows to an infinity. *)
Variable float_mul : Q -> Q -> option Q.

(** ** RelaxedDeliveriesState *)

Record RelaxedDeliveriesState := {
  current_location : Junction;
  dropped_so_far : gset Junction;
  fuel : Q
}.

(** [RelaxedDeliveriesState.__init__]: the fields are stored, then
    [assert fuel > 0]. *)
Definition RelaxedDeliveriesState__init__
    (loc : Junction) (dropped : gset Junction) (fuel0 : Q)
    : result RelaxedDeliveriesState :=
  if Qlt_le_dec 0 fuel0
  then Ok {| current_location := loc; dropped_so_far := dropped; fuel := fuel0 |}
  else Raised AssertionError.

Definition fuel_as_int (self : RelaxedDeliveriesState) : result Z :=
  int_of_double (float_mul (fuel self) 1000000).

(** The three comparisons are made in this order, each to its end, before
    they are combined: an error of either [fuel_as_int] escapes whatever the
    locations and the dropped sets are. *)
Definition RelaxedDeliveriesState__eq__ (self other : RelaxedDeliveriesState)
    : result bool :=
  let location_equal := bool_decide (current_location self = current_location other) in
  let drop_off_equal := bool_decide (dropped_so_far self = dropped_so_far other) in
  match fuel_as_int self with
  | Raised e => Raised e
  | Ok self_fuel_as_int =>
      match fuel_as_int other with
      | Raised e => Raised e
      | Ok other_fuel_as_int =>
          let fuel_equal := Z.eqb self_fuel_as_int other_fuel_as_int in
          Ok (location_equal && drop_off_equal && fuel_equal)
      end
  end.

Definition RelaxedDeliveriesState__hash__ (self : RelaxedDeliveriesState) : result Z :=
  match fuel_as_int self with
  | Raised e => Raised e
  | Ok self_fuel_as_int =>
      Ok (hash (current_location self, dropped_so_far self, self_fuel_as_int))
  end.

(** ** DeliveriesProblemInput (fields read by the code) *)

Record DeliveriesProblemInput := {
  input_name : string;
  input_start_point : Junction;
  input_drop_points : gset Junction;
  input_gas_stations : gset Junction;
  input_gas_tank_capacity : Q;
  input_gas_tank_init_fuel : Q
}.

(** ** RelaxedDeliveriesProblem *)

Record RelaxedDeliveriesProblem := {
  name : string;
  initial_state : RelaxedDeliveriesState;
  start_point : Junction;
  drop_points : gset Junction;
  gas_stations : gset Junction;
  gas_tank_capacity : Q;
  possible_stop_points : gset Junction
}.

Definition RelaxedDeliveriesProblem__init__ (problem_input : DeliveriesProblemInput)
    : result RelaxedDeliveriesProblem :=
  let name' := "RelaxedDeliveries" ++ "(" ++ input_name problem_input ++ ")" in
  if decide (input_start_point problem_input ∉ input_drop_points problem_input) then
    match RelaxedDeliveriesState__init__
            (input_start_point problem_input) ∅
            (input_gas_tank_init_fuel problem_input) with
    | Raised e => Raised e
    | Ok initial_state' =>
        Ok {| name := name';
              initial_state := initial_state';
              start_point := input_start_point problem_input;
              drop_points := input_drop_points problem_input;
              gas_stations := input_gas_stations problem_input;
              gas_tank_capacity := input_gas_tank_capacity problem_input;
              possible_stop_points :=
                input_drop_points problem_input ∪ input_gas_stations problem_input |}
    end
  else Raised AssertionError.

(** The body of the [for] loop of [expand_state_with_costs], over the
    stop points still to be visited by the iteration. *)
Fixpoint expand_loop (self : RelaxedDeliveriesProblem)
    (state_to_expand : RelaxedDeliveriesState) (junctions : list Junction)
    : generated (RelaxedDeliveriesState * Q) :=
  match junctions with
  | [] => StopIteration
  | successor_state_junction :: rest =>
      if decide (successor_state_junction = current_location state_to_expand)
      then expand_loop self state_to_expand rest
      else if decide (successor_state_junction ∈ dropped_so_far state_to_expand)
      then expand_loop self state_to_expand rest
      else
        let distance :=
          calc_air_distance_from (current_location state_to_expand)
                                 successor_state_junction in
        let successor_state_fuel := (fuel state_to_expand - distance)%Q in
        if Qlt_le_dec successor_state_fuel 0
        then expand_loop self state_to_expand rest
        else
          let '(successor_state_fuel', successor_state_dropped_points) :=
            if decide (successor_state_junction ∈ drop_points self)
            then (successor_state_fuel,
                  dropped_so_far state_to_expand ∪ {[successor_state_junction]})
            else (gas_tank_capacity self, dropped_so_far state_to_expand) in
          match RelaxedDeliveriesState__init__ successor_state_junction
                  successor_state_dropped_points successor_state_fuel' with
          | Raised e => Abort e
          | Ok successor_state =>
              Yield (successor_state, distance)
                    (expand_loop self state_to_expand rest)
          end
  end.

Definition expand_state_with_costs (self : RelaxedDeliveriesProblem)
    (state_to_expand : RelaxedDeliveriesState)
    : generated (RelaxedDeliveriesState * Q) :=
  expand_loop self state_to_expand (elements (possible_stop_points self)).

Definition is_goal (self : RelaxedDeliveriesProblem)
    (state : RelaxedDeliveriesState) : bool :=
  bool_decide (dropped_so_far state = drop_points self).

(** ** MaxAirDistHeuristic *)

Definition MaxAirDistHeuristic_estimate (problem : RelaxedDeliveriesProblem)
    (state : RelaxedDeliveriesState) : Q :=
  let left_orders_set := drop_points problem ∖ dropped_so_far state in
  foldl (fun max_air_dist drop_point =>
           let air_dist := calc_air_distance_from drop_point (current_location state) in
           if Qlt_le_dec max_air_dist air_dist then air_dist else max_air_dist)
        0%Q (elements left_orders_set).

(** ** MSTAirDistHeuristic *)

(** The cache argument is [self._junctions_distances_cache]; the [dict()]
    of [__init__] is [∅]. *)
Definition _get_distance_between_junctions (junction1 junction2 : Junction)
    (cache : gmap (gset Junction) Q) : Q * gmap (gset Junction) Q :=
  let junctions_pair : gset Junction := {[junction1; junction2]} in
  match cache !! junctions_pair with
  | Some dist => (dist, cache)
  | None =>
      let dist := calc_air_distance_from junction1 junction2 in
      (dist, <[junctions_pair := dist]> cache)
  end.

(** A dense numpy matrix, by rows. *)
Definition np_zeros (rows cols : nat) : list (list Q) :=
  replicate rows (replicate cols 0%Q).

(** [m[i, j] = v]; the indices used by the code are always in range. *)
Definition matrix_set (m : list (list Q)) (i j : nat) (v : Q) : list (list Q) :=
  alter (fun row => <[j := v]> row) i m.

Definition matrix_get (m : list (list Q)) (i j : nat) : option Q :=
  m !! i ≫= fun row => row !! j.

(** The body of the inner loop of [_calculate_junctions_air_dist_mst_weight],
    on the pair (cache, distances_matrix).  [idx_to_junction] is defined on
    every index below [nr_junctions], so the last branch is never taken. *)
Definition fill_entry (idx_to_junction : list Junction) (j1_idx j2_idx : nat)
    (st : gmap (gset Junction) Q * list (list Q))
    : gmap (gset Junction) Q * list (list Q) :=
  if decide (j1_idx = j2_idx) then st
  else
    match idx_to_junction !! j1_idx, idx_to_junction !! j2_idx with
    | Some junction1, Some junction2 =>
        let '(dist, cache') :=
          _get_distance_between_junctions junction1 junction2 st.1 in
        (cache', matrix_set (matrix_set st.2 j1_idx j2_idx dist) j2_idx j1_idx dist)
    | _, _ => st
    end.

Definition fill_row (idx_to_junction : list Junction) (nr_junctions j1_idx : nat)
    (st : gmap (gset Junction) Q * list (list Q))
    : gmap (gset Junction) Q * list (list Q) :=
  foldl (fun st j2_idx => fill_entry idx_to_junction j1_idx j2_idx st)
        st (seq 0 nr_junctions).

Definition fill_distances_matrix (idx_to_junction : list Junction)
    (cache : gmap (gset Junction) Q)
    : gmap (gset Junction) Q * list (list Q) :=
  let nr_junctions := length idx_to_junction in
  foldl (fun st j1_idx => fill_row idx_to_junction nr_junctions j1_idx st)
        (cache, np_zeros nr_junctions nr_junctions) (seq 0 nr_junctions).

End Model.

(** ** scipy.sparse.csgraph.minimum_spanning_tree

    The library routine, after its documentation: the dense input is read as
    an undirected graph whose edges are the non-zero entries; the edges are
    taken in increasing order of weight (stable sort of the entries in
    row-major order) and an edge is kept when its two ends lie in different
    subtrees (Kruskal's algorithm).  The result holds the kept entries.
    The disjoint subtrees are represented by the label of each vertex. *)

Definition entry : Type := nat * nat * Q.

Definition entries (m : list (list Q)) : list entry :=
  concat (imap (fun i row => imap (fun j w => (i, j, w)) row) m).

Definition nonzero_entries (m : list (list Q)) : list entry :=
  filter (fun e : entry => Qeq_bool e.2 0 = false) (entries m).

Fixpoint insert_by_weight (e : entry) (l : list entry) : list entry :=
  match l with
  | [] => [e]
  | e' :: l' =>
      if Qle_bool e.2 e'.2 then e :: e' :: l'
      else e' :: insert_by_weight e l'
  end.

Definition sort_by_weight (l : list entry) : list entry :=
  foldr insert_by_weight [] l.

Definition join_subtrees (label : nat -> nat) (r1 r2 : nat) : nat -> nat :=
  fun v => if Nat.eqb (label v) r2 then r1 else label v.

Fixpoint kruskal (edges : list entry) (label : nat -> nat) : list entry :=
  match edges with
  | [] => []
  | (v1, v2, w) :: rest =>
      let r1 := label v1 in
      let r2 := label v2 in
      if Nat.eqb r1 r2 then kruskal rest label
      else (v1, v2, w) :: kruskal rest (join_subtrees label r1 r2)
  end.

Definition minimum_spanning_tree (csgraph : list (list Q)) : list entry :=
  kruskal (sort_by_weight (nonzero_entries csgraph)) (fun v => v).

(** [.sum()] of the sparse result. *)
Definition entries_sum (t : list entry) : Q :=
  foldr (fun e acc => (e.2 + acc)%Q) 0%Q t.

Section Heuristics.

Context {Junction : Type} `{!EqDecision Junction, !Countable Junction}.
Variable calc_air_distance_from : Junction -> Junction -> Q.

Definition _calculate_junctions_air_dist_mst_weight (junctions : gset Junction)
    (cache : gmap (gset Junction) Q) : Q * gmap (gset Junction) Q :=
  let idx_to_junction := elements junctions in
  let '(cache', distances_matrix) :=
    fill_distances_matrix calc_air_distance_from idx_to_junction cache in
  (entries_sum (minimum_spanning_tree distances_matrix), cache').

Definition MSTAirDistHeuristic_estimate (problem : RelaxedDeliveriesProblem)
    (state : RelaxedDeliveriesState) (cache : gmap (gset Junction) Q)
    : Q * gmap (gset Junction) Q :=
  let remained_drop_points :=
    (drop_points problem ∖ dropped_so_far state) ∪ {[current_location state]} in
  _calculate_junctions_air_dist_mst_weight remained_drop_points cache.

(** ** RelaxedDeliveriesHeuristic *)

(** The fields of the strict problem and of its states that the heuristic
    reads. *)
Record StrictDeliveriesState := {
  strict_current_location : Junction;
  strict_dropped_so_far : gset Junction;
  strict_fuel : Q
}.

Record StrictDeliveriesProblem := {
  strict_drop_points : gset Junction;
  strict_gas_stations : gset Junction;
  strict_gas_tank_capacity : Q
}.

Inductive heuristic_class : Set :=
| MaxAirDistHeuristic
| MSTAirDistHeuristic
| RelaxedDeliveriesHeuristic.

Record SearchNode := { cost : Q }.
Record SearchResult := { final_search_node : option SearchNode }.

(** [AStar(heuristic).solve_problem(problem)], of [framework.graph_search]:
    the search result, or the exception that escapes the search (the search
    expands, compares and hashes states, all of which can raise). *)
Variable AStar_solve_problem :
  heuristic_class -> @RelaxedDeliveriesProblem Junction _ _ -> result SearchResult.

Definition sub_problem_input (problem : StrictDeliveriesProblem)
    (state : StrictDeliveriesState) : DeliveriesProblemInput :=
  let problem_name := "DeliveriesProblemInput" in
  let start_point := strict_current_location state in
  let left_drop_points := strict_drop_points problem ∖ strict_dropped_so_far state in
  let gas_stations := strict_gas_stations problem in
  let gas_tank_capacity := strict_gas_tank_capacity problem in
  let gas_tank_init_fuel := strict_fuel state in
  {| input_name := problem_name;
     input_start_point := start_point;
     input_drop_points := left_drop_points;
     input_gas_stations := gas_stations;
     input_gas_tank_capacity := gas_tank_capacity;
     input_gas_tank_init_fuel := gas_tank_init_fuel |}.

Definition RelaxedDeliveriesHeuristic_estimate (problem : StrictDeliveriesProblem)
    (state : StrictDeliveriesState) : result float_value :=
  match RelaxedDeliveriesProblem__init__ (sub_problem_input problem state) with
  | Raised e => Raised e
  | Ok sub_problem =>
      match AStar_solve_problem MSTAirDistHeuristic sub_problem with
      | Raised e => Raised e
      | Ok astar_solution =>
          match final_search_node astar_solution with
          | None => Ok np_inf
          | Some node => Ok (Finite (cost node))
          end
      end
  end.

End Heuristics.

(** ** IEEE 754 binary64 products

    The product of two doubles as Python computes it: the exact product
    rounded to the nearest double (53 significant bits, exponent of the last
    bit at least -1074), ties to the even significand, and an infinity when
    the rounded value reaches 2^1024. *)

Module Double.

(** [floor (log2 (n / d))]. *)
Definition floor_log2 (n d : positive) : Z :=
  let k := (Z.log2 (Z.pos n) - Z.log2 (Z.pos d))%Z in
  let below :=
    if (0 <=? k)%Z then (Z.pos n <? Z.pos d * 2 ^ k)%Z
    else (Z.pos n * 2 ^ (- k) <? Z.pos d)%Z in
  if below then (k - 1)%Z else k.

(** The integer nearest to [n / d], the even one of two equally near. *)
Definition round_half_even (n d : Z) : Z :=
  let q := (n / d)%Z in
  match (2 * (n mod d) ?= d)%Z with
  | Lt => q
  | Gt => (q + 1)%Z
  | Eq => if Z.even q then q else (q + 1)%Z
  end.

(** [m * 2^e]. *)
Definition scale (m e : Z) : Q :=
  if (0 <=? e)%Z then inject_Z (m * 2 ^ e)
  else Qmake m (Z.to_pos (2 ^ (- e))).

Definition round_double_pos (n d : positive) : option Q :=
  let e := Z.max (floor_log2 n d - 52) (-1074) in
  let m :=
    if (0 <=? e)%Z then round_half_even (Z.pos n) (Z.pos d * 2 ^ e)
    else round_half_even (Z.pos n * 2 ^ (- e)) (Z.pos d) in
  if (2 ^ 1024 <=? m * 2 ^ (Z.max e 0))%Z then None
  else Some (scale m e).

Definition round_double (x : Q) : option Q :=
  match Qnum x with
  | Z0 => Some 0%Q
  | Zpos n => round_double_pos n (Qden x)
  | Zneg n => option_map Qopp (round_double_pos n (Qden x))
  end.

Definition double_mul (x y : Q) : option Q := round_double (x * y).

(** The doubles that Python writes [9e-07], [1.1e-06], [0.03],
    [9007199255.00002], [9007199255.000021] and [2e+302]. *)
Definition d_9e_07 : Q := 8500259669165361 # 9444732965739290427392.
Definition d_1_1e_06 : Q := 2597301565578305 # 2361183241434822606848.
Definition d_0_03 : Q := 1080863910568919 # 36028797018963968.
Definition d_9007199255_00002 : Q := 2361183241502725 # 262144.
Definition d_9007199255_000021 : Q := 4722366483005451 # 524288.
Definition d_2e302 : Q :=
  inject_Z 200000000000000015259406158169789850694693710301313623403203468412422760576251588968284377929383568153279495154277097522744420775689599876583631222701039661500335299712977963253072736190829214628470302116746917973781650311318127235431726410565244781018568366879717234206167471347699798409140996315021312.

End Double.

(** ** A concrete instance: junctions on a line

    Junctions are natural numbers, the air distance between two of them is
    the absolute difference of their positions. *)

Module Line.

Definition line_distance (a b : nat) : Q :=
  inject_Z (Z.abs (Z.of_nat a - Z.of_nat b)).

Definition tuple_hash (t : nat * gset nat * Z) : Z :=
  (Z.of_nat t.1.1 + Z.of_nat (size t.1.2) + t.2)%Z.

(** One delivery at position 10, no gas station, start at 0 with fuel 10. *)
Definition exact_fuel_input : @DeliveriesProblemInput nat _ _ :=
  {| input_name := "line";
     input_start_point := 0%nat;
     input_drop_points := {[10%nat]};
     input_gas_stations := ∅;
     input_gas_tank_capacity := 30;
     input_gas_tank_init_fuel := 10 |}.

(** Deliveries at 10 and 20, a gas station at 5 that also takes a delivery,
    start at 0 with fuel 12 and a tank of 30. *)
Definition line_input : @DeliveriesProblemInput nat _ _ :=
  {| input_name := "line";
     input_start_point := 0%nat;
     input_drop_points := {[5%nat; 10%nat; 20%nat]};
     input_gas_stations := {[5%nat; 7%nat]};
     input_gas_tank_capacity := 30;
     input_gas_tank_init_fuel := 12 |}.

Definition problem_of (i : @DeliveriesProblemInput nat _ _)
    : @RelaxedDeliveriesProblem nat _ _ :=
  match RelaxedDeliveriesProblem__init__ i with
  | Ok p => p
  | Raised _ =>
      {| name := ""; initial_state := {| current_location := 0%nat;
                                         dropped_so_far := ∅; fuel := 0 |};
         start_point := 0%nat; drop_points := ∅; gas_stations := ∅;
         gas_tank_capacity := 0; possible_stop_points := ∅ |}
  end.

(** A strict problem on the line and one of its states. *)
Definition line_strict_problem : @StrictDeliveriesProblem nat _ _ :=
  {| strict_drop_points := {[10%nat; 20%nat]};
     strict_gas_stations := {[5%nat]};
     strict_gas_tank_capacity := 30 |}.

Definition line_strict_state : @StrictDeliveriesState nat _ _ :=
  {| strict_current_location := 0%nat;
     strict_dropped_so_far := ∅;
     strict_fuel := 12 |}.

(** A solver that only recognises problems whose initial state is a goal. *)
Definition goal_only_solver (h : heuristic_class)
    (p : @RelaxedDeliveriesProblem nat _ _) : result SearchResult :=
  Ok {| final_search_node :=
          if is_goal p (initial_state p) then Some {| cost := 0 |} else None |}.

(** A solver that expands the initial state to its end before it answers,
    and lets the exception of the expansion escape. *)
Definition expanding_solver (h : heuristic_class)
    (p : @RelaxedDeliveriesProblem nat _ _) : result SearchResult :=
  match escaped (expand_state_with_costs line_distance p (initial_state p)) with
  | Some e => Raised e
  | None => goal_only_solver h p
  end.

End Line.

(** ** Specification vocabulary *)

Section Vocabulary.

Context {Junction : Type} `{!EqDecision Junction, !Countable Junction}.
Variable calc_air_distance_from : Junction -> Junction -> Q.

(** [successor_of p s q s' c]: the pair [(s', c)] is what the loop body of
    [expand_state_with_costs] builds for the stop point [q]. *)
Definition successor_of (p : @RelaxedDeliveriesProblem Junction _ _)
    (s : @RelaxedDeliveriesState Junction _ _) (q : Junction)
    (s' : @RelaxedDeliveriesState Junction _ _) (c : Q) : Prop :=
  q <> current_location s /\ (q ∉ dropped_so_far s) /\
  c = calc_air_distance_from (current_location s) q /\
  (0 <= fuel s - c)%Q /\
  current_location s' = q /\ (0 < fuel s')%Q /\
  (q ∈ drop_points p ->
     dropped_so_far s' = dropped_so_far s ∪ {[q]} /\ fuel s' = (fuel s - c)%Q) /\
  (q ∉ drop_points p ->
     dropped_so_far s' = dropped_so_far s /\ fuel s' = gas_tank_capacity p).

(** States of the state space of a problem: the initial state and whatever
    successive expansions yield. *)
Inductive reachable (p : @RelaxedDeliveriesProblem Junction _ _)
    : @RelaxedDeliveriesState Junction _ _ -> Prop :=
| reachable_initial : reachable p (initial_state p)
| reachable_successor s s' c :
    reachable p s ->
    (s', c) ∈ yielded (expand_state_with_costs calc_air_distance_from p s) ->
    reachable p s'.

(** A sequence of calls of [_get_distance_between_junctions] on one cache:
    the values returned, in order, and the cache left behind. *)
Fixpoint call_sequence (calls : list (Junction * Junction))
    (cache : gmap (gset Junction) Q) : list Q * gmap (gset Junction) Q :=
  match calls with
  | [] => ([], cache)
  | (junction1, junction2) :: rest =>
      let '(dist, cache') :=
        _get_distance_between_junctions calc_air_distance_from junction1 junction2 cache in
      let '(dists, cache'') := call_sequence rest cache' in
      (dist :: dists, cache'')
  end.

(** The entries a cache holds for the unordered pair of two junctions. *)
Definition entries_for_pair (cache : gmap (gset Junction) Q) (p1 p2 : Junction)
    : list (gset Junction * Q) :=
  filter (fun kv => kv.1 = {[p1; p2]}) (map_to_list cache).

(** Every cached distance was computed by [calc_air_distance_from] on the
    two junctions of its key, in one order or the other. *)
Definition cache_computed (cache : gmap (gset Junction) Q) : Prop :=
  forall k v, cache !! k = Some v ->
    exists a b, k = {[a; b]} /\ v = calc_air_distance_from a b.

End Vocabulary.

(** Bookkeeping for the spanning forest: a weight per subtree label, the
    total of the weights of the labels below [n], and the change of one
    weight. *)
Fixpoint sum_weights (weight : nat -> Q) (n : nat) : Q :=
  match n with
  | O => 0
  | S k => sum_weights weight k + weight k
  end.

Definition reweigh (weight : nat -> Q) (r : nat) (a : Q) : nat -> Q :=
  fun l => if Nat.eqb l r then a else weight l.

Definition merged_weight (weight : nat -> Q) (r1 r2 : nat) (w : Q) : nat -> Q :=
  reweigh (reweigh weight r2 0) r1 (weight r1 + weight r2 + w).

(** [forest_bound n E label weight]: among the vertices below [n], each
    subtree spans distances [E] no larger than its weight. *)
Definition forest_bound (n : nat) (E : nat -> nat -> Q)
    (label : nat -> nat) (weight : nat -> Q) : Prop :=
  (forall l, 0 <= weight l)%Q /\
  (forall x, x < n -> label x < n) /\
  (forall x y, x < n -> y < n -> label x = label y -> (E x y <= weight (label x))%Q).

(** Every edge joins two vertices below [n] and weighs at least their
    distance. *)
Definition edges_in_range (n : nat) (E : nat -> nat -> Q) (edges : list entry) : Prop :=
  forall u v w, (u, v, w) ∈ edges -> u < n /\ v < n /\ (E u v <= w)%Q.

Section MatrixVocabulary.

Context {Junction : Type} `{!EqDecision Junction, !Countable Junction}.
Variable calc_air_distance_from : Junction -> Junction -> Q.

(** The distance between the junctions at two indices of [idx_to_junction];
    the diagonal is never computed and stays at the zero of [np.zeros]. *)
Definition index_distance (idx_to_junction : list Junction) (i j : nat) : Q :=
  if decide (i = j) then 0
  else match idx_to_junction !! i, idx_to_junction !! j with
       | Some a, Some b => calc_air_distance_from a b
       | _, _ => 0
       end.

(** The entry at row [a], column [b] holds the distance of the two
    junctions. *)
Definition filled (idx_to_junction : list Junction) (m : list (list Q))
    (a b : nat) : Prop :=
  exists v, matrix_get m a b = Some v /\ (v == index_distance idx_to_junction a b)%Q.

(** The state of the two nested loops when the outer index is [i] and the
    inner index is [j]. *)
Definition fill_invariant (idx_to_junction : list Junction) (i j : nat)
    (st : gmap (gset Junction) Q * list (list Q)) : Prop :=
  let n := length idx_to_junction in
  cache_computed calc_air_distance_from st.1 /\
  (forall a b, is_Some (matrix_get st.2 a b) <-> a < n /\ b < n) /\
  (forall a b, a < n -> b < n -> (a < i \/ (a = i /\ b < j) \/ a = b) ->
     filled idx_to_junction st.2 a b).

End MatrixVocabulary.

(** ** Printing *)

(** [str(n)] on an integer: its decimal digits, with a minus sign when
    negative. *)
Definition str_int (n : Z) : string := NilZero.string_of_int (Z.to_int n).

Section Printing.

Context {Junction : Type} `{!EqDecision Junction, !Countable Junction}.

(** The [index] field of a [Junction], of [framework.ways]. *)
Variable index : Junction -> Z.

Definition RelaxedDeliveriesState__str__ (self : @RelaxedDeliveriesState Junction _ _)
    : string :=
  str_int (index (current_location self)).

(** [solution_additional_str], on the states that [result.make_path()]
    iterates over. *)
Definition solution_additional_str (self : @RelaxedDeliveriesProblem Junction _ _)
    (make_path : list (@RelaxedDeliveriesState Junction _ _)) : string :=
  "gas-stations: [" ++
  String.concat ", "
    (map RelaxedDeliveriesState__str__
       (filter (fun state => current_location state ∈ gas_stations self) make_path)) ++
  "]".

(** [MSTAirDistHeuristic.__init__]: the cache the instance starts with. *)
Definition MSTAirDistHeuristic__init__ : gmap (gset Junction) Q := ∅.

End Printing.

(** Two entries at the same cell whose weights are equal as numbers. *)
Definition entry_equiv (e1 e2 : entry) : Prop :=
  e1.1 = e2.1 /\ (e1.2 == e2.2)%Q.

(** * Properties *)

(** ** States *)

Section StateProperties.

Context {Junction : Type} `{!EqDecision Junction, !Countable Junction}.
Variable hash : Junction * gset Junction * Z -> Z.
Variable float_mul : Q -> Q -> option Q.

Local Abbreviation State := (@RelaxedDeliveriesState Junction _ _).
Local Abbreviation Problem := (@RelaxedDeliveriesProblem Junction _ _).

Lemma init_Ok_inv (loc : Junction) dropped (f : Q) (s : State) :
  RelaxedDeliveriesState__init__ loc dropped f = Ok s ->
  (0 < f)%Q /\ current_location s = loc /\ dropped_so_far s = dropped /\ fuel s = f.
Proof.
  unfold RelaxedDeliveriesState__init__.
  destruct (Qlt_le_dec 0 f); intros E; inversion E; subst; simpl; auto.
Qed.

(** C6. Constructing a state with fuel <= 0 fails with the assertion error
    (the contract-violation failure of the constructor), and with fuel > 0 it
    succeeds and stores the three arguments unchanged; the two cases are
    exactly characterised by the sign of the fuel. *)
Theorem init_fails_iff_fuel_nonpositive (loc : Junction) (dropped : gset Junction) (f : Q) :
  ((f <= 0)%Q <-> RelaxedDeliveriesState__init__ loc dropped f = Raised AssertionError) /\
  ((0 < f)%Q <->
     RelaxedDeliveriesState__init__ loc dropped f =
       Ok {| current_location := loc; dropped_so_far := dropped; fuel := f |}).
Proof.
  unfold RelaxedDeliveriesState__init__.
  destruct (Qlt_le_dec 0 f) as [Hpos | Hneg]; split; split;
    try reflexivity; try discriminate; intros; try lra; auto.
Qed.

(** C8. [is_goal] answers true exactly when the dropped set of the state is
    the drop-point set of the problem; two states with the same dropped set
    get the same answer whatever their fuel and location. *)
Theorem is_goal_iff_all_dropped (p : Problem) (s : State) :
  (is_goal p s = true <-> dropped_so_far s = drop_points p) /\
  (forall loc' fuel',
      is_goal p {| current_location := loc';
                   dropped_so_far := dropped_so_far s;
                   fuel := fuel' |} = is_goal p s).
Proof.
  unfold is_goal. split.
  - apply bool_decide_eq_true.
  - reflexivity.
Qed.

Lemma eq_true_iff (s1 s2 : State) :
  RelaxedDeliveriesState__eq__ float_mul s1 s2 = Ok true <->
  current_location s1 = current_location s2 /\
  dropped_so_far s1 = dropped_so_far s2 /\
  exists b, fuel_as_int float_mul s1 = Ok b /\ fuel_as_int float_mul s2 = Ok b.
Proof.
  unfold RelaxedDeliveriesState__eq__.
  destruct (fuel_as_int float_mul s1) as [a|e1]; [|split; [discriminate|]].
  - destruct (fuel_as_int float_mul s2) as [b|e2]; [|split; [discriminate|]].
    + split.
      * intros E. inversion E as [Hb]. clear E.
        apply andb_true_iff in Hb as [Hb Hf]. apply andb_true_iff in Hb as [Hl Hd].
        apply bool_decide_eq_true in Hl, Hd. apply Z.eqb_eq in Hf. subst b.
        split; [done|]. split; [done|]. by exists a.
      * intros (Hl & Hd & c & Ea & Eb). inversion Ea; inversion Eb; subst.
        f_equal. rewrite !andb_true_iff, !bool_decide_eq_true, Z.eqb_eq. done.
    + intros (_ & _ & c & _ & Eb). discriminate.
  - intros (_ & _ & c & Ea & _). discriminate.
Qed.

Lemma eq_false_iff (s1 s2 : State) :
  RelaxedDeliveriesState__eq__ float_mul s1 s2 = Ok false <->
  exists b1 b2,
    fuel_as_int float_mul s1 = Ok b1 /\ fuel_as_int float_mul s2 = Ok b2 /\
    (current_location s1 <> current_location s2 \/
     dropped_so_far s1 <> dropped_so_far s2 \/ b1 <> b2).
Proof.
  unfold RelaxedDeliveriesState__eq__.
  destruct (fuel_as_int float_mul s1) as [a|e1];
    [|split; [discriminate | intros (? & ? & ? & _); discriminate]].
  destruct (fuel_as_int float_mul s2) as [b|e2];
    [|split; [discriminate | intros (? & ? & _ & ? & _); discriminate]].
  split.
  - intros E. inversion E as [Hb]. clear E. exists a, b. split; [done|]. split; [done|].
    destruct (decide (current_location s1 = current_location s2)) as [Hl|Hl]; [|by left].
    destruct (decide (dropped_so_far s1 = dropped_so_far s2)) as [Hd|Hd];
      [|by right; left].
    right; right. intros ->.
    rewrite !bool_decide_eq_true_2, Z.eqb_refl in Hb by done. discriminate.
  - intros (b1 & b2 & E1 & E2 & Hne). inversion E1; inversion E2; subst. f_equal.
    apply not_true_is_false. rewrite !andb_true_iff, !bool_decide_eq_true, Z.eqb_eq.
    intros [[Hl Hd] Hf]. destruct Hne as [?|[?|?]]; done.
Qed.


End StateProperties.

(** ** Expansion *)

Section ExpandProperties.

Context {Junction : Type} `{!EqDecision Junction, !Countable Junction}.
Variable calc_air_distance_from : Junction -> Junction -> Q.

Local Abbreviation State := (@RelaxedDeliveriesState Junction _ _).
Local Abbreviation Problem := (@RelaxedDeliveriesProblem Junction _ _).
Local Abbreviation expand := (expand_state_with_costs calc_air_distance_from).
Local Abbreviation loop := (expand_loop calc_air_distance_from).
Local Abbreviation dist := calc_air_distance_from.

Lemma yielded_loop_sound (p : Problem) (s : State) qs s' c :
  (s', c) ∈ yielded (loop p s qs) ->
  exists q, q ∈ qs /\ successor_of calc_air_distance_from p s q s' c.
Proof.
  induction qs as [|q qs IH]; cbn [expand_loop yielded].
  - intros Hin. inversion Hin.
  - assert (Hrest : (s', c) ∈ yielded (loop p s qs) ->
                    exists q0, q0 ∈ q :: qs /\ successor_of dist p s q0 s' c).
    { intros Hin. destruct (IH Hin) as (q0 & Hq0 & Hs). exists q0. split; [by right | done]. }
    destruct (decide (q = current_location s)); [done|].
    destruct (decide (q ∈ dropped_so_far s)); [done|].
    destruct (Qlt_le_dec (fuel s - dist (current_location s) q) 0); [done|].
    destruct (decide (q ∈ drop_points p)); unfold RelaxedDeliveriesState__init__;
      match goal with |- context [Qlt_le_dec ?a ?b] => destruct (Qlt_le_dec a b) end;
      cbn [yielded]; try (intros Hin; inversion Hin; fail).
    + intros Hin. apply elem_of_cons in Hin as [E | Hin]; [|auto].
      inversion E; subst. exists q. split; [by left|].
      unfold successor_of; simpl. repeat split; auto; try lra; try done.
    + intros Hin. apply elem_of_cons in Hin as [E | Hin]; [|auto].
      inversion E; subst. exists q. split; [by left|].
      unfold successor_of; simpl. repeat split; auto; try lra; try done.
Qed.

Lemma yielded_expand_sound (p : Problem) (s : State) s' c :
  (s', c) ∈ yielded (expand p s) ->
  exists q, q ∈ possible_stop_points p /\ successor_of calc_air_distance_from p s q s' c.
Proof.
  intros Hin. apply yielded_loop_sound in Hin as (q & Hq & Hs).
  exists q. split; [by apply elem_of_elements | done].
Qed.

Lemma yielded_loop_complete (p : Problem) (s : State) qs q :
  escaped (loop p s qs) = None ->
  q ∈ qs -> q <> current_location s -> q ∉ dropped_so_far s ->
  (dist (current_location s) q <= fuel s)%Q ->
  exists s', (s', dist (current_location s) q) ∈ yielded (loop p s qs) /\
             successor_of calc_air_distance_from p s q s' (dist (current_location s) q).
Proof.
  intros Hesc Hq Hcur Hdrop Hfuel.
  induction qs as [|q0 qs IH]; [inversion Hq|].
  cbn [expand_loop yielded escaped] in *.
  assert (Hrest : escaped (loop p s qs) = None -> q ∈ qs ->
     exists s', (s', dist (current_location s) q) ∈ yielded (loop p s qs) /\
                successor_of dist p s q s' (dist (current_location s) q)) by auto.
  apply elem_of_cons in Hq as [-> | Hq].
  - destruct (decide (q0 = current_location s)); [done|].
    destruct (decide (q0 ∈ dropped_so_far s)); [done|].
    destruct (Qlt_le_dec (fuel s - dist (current_location s) q0) 0); [lra|].
    revert Hesc.
    destruct (decide (q0 ∈ drop_points p)); unfold RelaxedDeliveriesState__init__;
      match goal with |- context [Qlt_le_dec ?a ?b] => destruct (Qlt_le_dec a b) end;
      cbn [yielded escaped]; try discriminate; intros _;
      (eexists; split; [by left|]);
      unfold successor_of; simpl; repeat split; auto; try lra; try done.
  - destruct (decide (q0 = current_location s)); [auto|].
    destruct (decide (q0 ∈ dropped_so_far s)); [auto|].
    destruct (Qlt_le_dec (fuel s - dist (current_location s) q0) 0); [auto|].
    revert Hesc.
    destruct (decide (q0 ∈ drop_points p)); unfold RelaxedDeliveriesState__init__;
      match goal with |- context [Qlt_le_dec ?a ?b] => destruct (Qlt_le_dec a b) end;
      cbn [yielded escaped]; try discriminate; intros Hesc;
      destruct (Hrest Hesc Hq) as (s' & Hin & Hs); exists s'; (split; [by right | done]).
Qed.

Lemma loop_skips_unaffordable (p : Problem) (s : State) qs q s' c :
  (fuel s - dist (current_location s) q < 0)%Q ->
  (s', c) ∈ yielded (loop p s qs) -> current_location s' <> q.
Proof.
  intros Hneg Hin E. apply yielded_loop_sound in Hin as (q0 & _ & Hs).
  destruct Hs as (_ & _ & Hc & Hge & Hloc & _). subst. lra.
Qed.

Lemma loop_aborts_at_exact_fuel (p : Problem) (s : State) qs q :
  q ∈ qs -> q <> current_location s -> q ∉ dropped_so_far s ->
  q ∈ drop_points p ->
  (dist (current_location s) q == fuel s)%Q ->
  escaped (loop p s qs) = Some AssertionError /\
  (forall s' c, (s', c) ∈ yielded (loop p s qs) -> current_location s' <> q).
Proof.
  intros Hq Hcur Hdrop Hdp Hd. split.
  - induction qs as [|q0 qs IH]; [inversion Hq|].
    cbn [expand_loop escaped].
    apply elem_of_cons in Hq as [<- | Hq].
    + destruct (decide (q = current_location s)); [done|].
      destruct (decide (q ∈ dropped_so_far s)); [done|].
      destruct (Qlt_le_dec (fuel s - dist (current_location s) q) 0); [lra|].
      destruct (decide (q ∈ drop_points p)); [|done].
      unfold RelaxedDeliveriesState__init__.
      destruct (Qlt_le_dec 0 (fuel s - dist (current_location s) q)); [lra|done].
    + destruct (decide (q0 = current_location s)); [auto|].
      destruct (decide (q0 ∈ dropped_so_far s)); [auto|].
      destruct (Qlt_le_dec (fuel s - dist (current_location s) q0) 0); [auto|].
      destruct (decide (q0 ∈ drop_points p)); unfold RelaxedDeliveriesState__init__;
        match goal with |- context [Qlt_le_dec ?a ?b] => destruct (Qlt_le_dec a b) end;
        cbn [escaped]; auto; by destruct e.
  - intros s' c Hin E. apply yielded_loop_sound in Hin as (q0 & _ & Hs).
    destruct Hs as (_ & _ & Hc & _ & Hloc & Hpos & Hdp' & _). subst q0.
    rewrite E in Hdp'. destruct (Hdp' Hdp) as [_ Hf].
    rewrite Hf in Hpos. subst c. rewrite E in Hpos. lra.
Qed.

(** X27. Completeness of an expansion that runs to its end without tripping the
    constructor's [fuel > 0] assertion: every stop point [q] other than
    the current location, not yet dropped and at an air distance within the
    fuel of [s] gets a successor located at [q], at edge cost that distance:
    at a drop point the dropped set gains [q] and the fuel is what is left
    after the leg; otherwise the fuel is the tank capacity and the dropped
    set is unchanged. *)
Theorem expand_emits_reachable_stop (p : Problem) (s : State) (q : Junction) :
  q ∈ possible_stop_points p ->
  q <> current_location s ->
  q ∉ dropped_so_far s ->
  (dist (current_location s) q <= fuel s)%Q ->
  escaped (expand p s) = None ->
  exists s',
    (s', dist (current_location s) q) ∈ yielded (expand p s) /\
    current_location s' = q /\
    (q ∈ drop_points p ->
       dropped_so_far s' = dropped_so_far s ∪ {[q]} /\
       fuel s' = (fuel s - dist (current_location s) q)%Q) /\
    (q ∉ drop_points p ->
       fuel s' = gas_tank_capacity p /\ dropped_so_far s' = dropped_so_far s).
Proof.
  intros Hq Hcur Hdrop Hfuel Hesc.
  destruct (yielded_loop_complete p s (elements (possible_stop_points p)) q)
    as (s' & Hin & Hs); auto.
  { by apply elem_of_elements. }
  destruct Hs as (_ & _ & _ & _ & Hloc & _ & Hdp & Hgas).
  exists s'. repeat split; auto; try (by apply Hdp); by apply Hgas.
Qed.

(** C5. Expanding a state never yields a successor with negative fuel: a
    point whose candidate fuel (the fuel of the state minus the air distance
    to the point) is below zero gets no successor, and every yielded
    successor has fuel at least zero. *)
Theorem expand_never_negative_fuel (p : Problem) (s : State) :
  (forall q, (fuel s - dist (current_location s) q < 0)%Q ->
     forall s' c, (s', c) ∈ yielded (expand p s) -> current_location s' <> q) /\
  (forall s' c, (s', c) ∈ yielded (expand p s) -> (0 <= fuel s')%Q).
Proof.
  split.
  - intros q Hneg s' c Hin. eapply loop_skips_unaffordable; eauto.
  - intros s' c Hin. apply yielded_expand_sound in Hin as (q & _ & Hs).
    destruct Hs as (_ & _ & _ & _ & _ & Hpos & _). lra.
Qed.

(** C9. A point that is both a drop point and a gas station is handled as a
    drop point: a successor yielded at it has the point added to the dropped
    set and keeps the candidate fuel (fuel minus distance), at edge cost the
    distance. *)
Theorem overlap_point_is_drop_stop (p : Problem) (s : State) (q : Junction) s' c :
  q ∈ drop_points p -> q ∈ gas_stations p ->
  (s', c) ∈ yielded (expand p s) -> current_location s' = q ->
  c = dist (current_location s) q /\
  dropped_so_far s' = dropped_so_far s ∪ {[q]} /\
  fuel s' = (fuel s - dist (current_location s) q)%Q.
Proof.
  intros Hdp _ Hin Hloc. apply yielded_expand_sound in Hin as (q0 & _ & Hs).
  destruct Hs as (_ & _ & Hc & _ & Hloc' & _ & Hd & _).
  assert (q0 = q) as -> by congruence.
  destruct (Hd Hdp) as [Hd1 Hd2]. subst c. auto.
Qed.

(** The expansion runs to its end exactly when no affordable candidate
    trips the constructor: no drop point lies at exactly the fuel of the
    state, and the tank capacity is positive if a gas station is affordable. *)
Lemma loop_completes_iff (p : Problem) (s : State) (qs : list Junction) :
  escaped (loop p s qs) = None <->
  (forall q, q ∈ qs -> q <> current_location s -> q ∉ dropped_so_far s ->
     (dist (current_location s) q <= fuel s)%Q ->
     (q ∈ drop_points p -> (dist (current_location s) q < fuel s)%Q) /\
     (q ∉ drop_points p -> (0 < gas_tank_capacity p)%Q)).
Proof.
  induction qs as [|q0 qs IH]; cbn [expand_loop escaped].
  - split; [|done]. intros _ q Hq. inversion Hq.
  - assert (Hskip : escaped (loop p s qs) = None <->
      (forall q, q ∈ qs -> q <> current_location s -> q ∉ dropped_so_far s ->
         (dist (current_location s) q <= fuel s)%Q ->
         (q ∈ drop_points p -> (dist (current_location s) q < fuel s)%Q) /\
         (q ∉ drop_points p -> (0 < gas_tank_capacity p)%Q)) ->
      (q0 = current_location s \/ q0 ∈ dropped_so_far s \/
       (fuel s - dist (current_location s) q0 < 0)%Q) ->
      escaped (loop p s qs) = None <->
      (forall q, q ∈ q0 :: qs -> q <> current_location s -> q ∉ dropped_so_far s ->
         (dist (current_location s) q <= fuel s)%Q ->
         (q ∈ drop_points p -> (dist (current_location s) q < fuel s)%Q) /\
         (q ∉ drop_points p -> (0 < gas_tank_capacity p)%Q))).
    { intros Hiff Hwhy. rewrite Hiff. split.
      - intros Hall q Hq. apply elem_of_cons in Hq as [->|Hq]; [|by apply Hall].
        intros ? ? ?. destruct Hwhy as [?|[?|?]]; [done|done|lra].
      - intros Hall q Hq. apply Hall. by right. }
    destruct (decide (q0 = current_location s)); [apply Hskip; auto|].
    destruct (decide (q0 ∈ dropped_so_far s)); [apply Hskip; auto|].
    destruct (Qlt_le_dec (fuel s - dist (current_location s) q0) 0);
      [apply Hskip; auto|].
    destruct (decide (q0 ∈ drop_points p)) as [Hdp|Hdp];
      unfold RelaxedDeliveriesState__init__;
      match goal with |- context [Qlt_le_dec ?a ?b] => destruct (Qlt_le_dec a b) end;
      cbn [escaped].
    + rewrite IH. split.
      * intros Hall x Hx. apply elem_of_cons in Hx as [->|Hx]; [|by apply Hall].
        intros _ _ _. split; [intros _; lra | done].
      * intros Hall x Hx. apply Hall. by right.
    + split; [discriminate|]. intros Hall.
      destruct (Hall q0) as [Hlt _]; [by left|done|done|lra|]. specialize (Hlt Hdp). lra.
    + rewrite IH. split.
      * intros Hall x Hx. apply elem_of_cons in Hx as [->|Hx]; [|by apply Hall].
        intros _ _ _. split; [done | intros _; lra].
      * intros Hall x Hx. apply Hall. by right.
    + split; [discriminate|]. intros Hall.
      destruct (Hall q0) as [_ Hcap]; [by left|done|done|lra|]. specialize (Hcap Hdp). lra.
Qed.

Lemma expand_completes_iff (p : Problem) (s : State) :
  escaped (expand p s) = None <->
  (forall q, q ∈ possible_stop_points p ->
     q <> current_location s -> q ∉ dropped_so_far s ->
     (dist (current_location s) q <= fuel s)%Q ->
     (q ∈ drop_points p -> (dist (current_location s) q < fuel s)%Q) /\
     (q ∉ drop_points p -> (0 < gas_tank_capacity p)%Q)).
Proof.
  unfold expand_state_with_costs. rewrite loop_completes_iff.
  split; intros Hall q Hq; apply Hall; by apply elem_of_elements.
Qed.

Lemma expand_aborts_at_exact_fuel (p : Problem) (s : State) (q : Junction) :
  q ∈ possible_stop_points p -> q <> current_location s -> q ∉ dropped_so_far s ->
  q ∈ drop_points p ->
  (dist (current_location s) q == fuel s)%Q ->
  escaped (expand p s) = Some AssertionError /\
  (forall s' c, (s', c) ∈ yielded (expand p s) -> current_location s' <> q).
Proof.
  intros Hq. apply loop_aborts_at_exact_fuel. by apply elem_of_elements.
Qed.

End ExpandProperties.

(** ** The line instance: exact fuel, close fuels *)

Section LineInstance.

Import Line.

Local Abbreviation exact_problem := (problem_of exact_fuel_input).
Local Abbreviation line_problem := (problem_of line_input).

(** C10. There is a state with an undropped drop point lying at exactly the
    fuel of the state, so that the candidate fuel is 0 and passes the skip
    guard, whose expansion ends with the assertion error of the state
    constructor: no successor is yielded at the point, and the point is not
    skipped either. *)
Theorem expand_raises_at_exact_fuel :
  exists (p : @RelaxedDeliveriesProblem nat _ _) s q,
    RelaxedDeliveriesProblem__init__ exact_fuel_input = Ok p /\
    s = initial_state p /\
    q ∈ drop_points p /\ (q ∉ dropped_so_far s) /\ q <> current_location s /\
    (fuel s - line_distance (current_location s) q == 0)%Q /\
    expand_state_with_costs line_distance p s = Abort AssertionError /\
    escaped (expand_state_with_costs line_distance p s) = Some AssertionError /\
    (forall s' c, (s', c) ∈ yielded (expand_state_with_costs line_distance p s) ->
                  current_location s' <> q).
Proof.
  exists exact_problem, (initial_state exact_problem), 10%nat.
  split; [by vm_compute|]. split; [done|].
  split; [compute_done|]. split; [compute_done|]. split; [compute_done|].
  split; [by vm_compute|]. split; [by vm_compute|].
  apply (expand_aborts_at_exact_fuel line_distance exact_problem
           (initial_state exact_problem) 10%nat); try compute_done; by vm_compute.
Qed.

(** C4. The code at its failing input: the drop point 10 is within the fuel
    10 of the initial state, not dropped and not the current location, so a
    successor at it is due; the candidate fuel 0 passes the skip guard, the
    constructor's assertion fails, and no successor is yielded at the
    point. *)
Lemma expand_emits_every_reachable_stop_fails :
  let p := exact_problem in
  let s := initial_state p in
  let q := 10%nat in
  q ∈ possible_stop_points p /\ q <> current_location s /\ (q ∉ dropped_so_far s) /\
  (line_distance (current_location s) q <= fuel s)%Q /\
  ~ exists s' c, (s', c) ∈ yielded (expand_state_with_costs line_distance p s) /\
                 current_location s' = q.
Proof.
  cbv zeta.
  split; [compute_done|]. split; [compute_done|]. split; [compute_done|].
  split; [by vm_compute|].
  intros (s' & c & Hin & _).
  replace (expand_state_with_costs line_distance exact_problem (initial_state exact_problem))
    with (@Abort (@RelaxedDeliveriesState nat _ _ * Q) AssertionError) in Hin
    by (by vm_compute).
  inversion Hin.
Qed.

Lemma expand_emits_reachable_stop_witness :
  exists s',
    (s', line_distance 0%nat 10%nat) ∈
      yielded (expand_state_with_costs line_distance line_problem (initial_state line_problem)) /\
    current_location s' = 10%nat.
Proof.
  destruct (expand_emits_reachable_stop line_distance line_problem
              (initial_state line_problem) 10%nat) as (s' & Hin & Hloc & _);
    try compute_done; try (by vm_compute).
  exists s'. split; [exact Hin | exact Hloc].
Defined.

Lemma overlap_point_is_drop_stop_witness :
  let s' := {| current_location := 5%nat; dropped_so_far := {[5%nat]}; fuel := 12 - 5 |} in
  line_distance 0%nat 5%nat = line_distance 0%nat 5%nat /\
  dropped_so_far s' = (∅ : gset nat) ∪ {[5%nat]} /\
  fuel s' = (12 - line_distance 0%nat 5%nat)%Q.
Proof.
  cbv zeta.
  apply (overlap_point_is_drop_stop line_distance line_problem
           (initial_state line_problem) 5%nat); try compute_done.
  vm_compute. right. left.
Defined.


(** The other half of C1 fails too: the doubles [9007199255.00002] and
    [9007199255.000021] are more than 1/1000000 apart, both double products
    with 1000000 are 9007199255000020.0, and the two states compare equal. *)
Lemma far_fuels_compare_equal :
  let s1 := {| current_location := 0%nat; dropped_so_far := ∅;
               fuel := Double.d_9007199255_00002 |} in
  let s2 := {| current_location := 0%nat; dropped_so_far := ∅;
               fuel := Double.d_9007199255_000021 |} in
  RelaxedDeliveriesState__init__ 0%nat ∅ Double.d_9007199255_00002 = Ok s1 /\
  RelaxedDeliveriesState__init__ 0%nat ∅ Double.d_9007199255_000021 = Ok s2 /\
  (1 # 1000000 < Qabs (fuel s1 - fuel s2))%Q /\
  fuel_as_int Double.double_mul s1 = Ok 9007199255000020%Z /\
  fuel_as_int Double.double_mul s2 = Ok 9007199255000020%Z /\
  RelaxedDeliveriesState__eq__ Double.double_mul s1 s2 = Ok true.
Proof. cbv zeta. repeat split; by vm_compute. Qed.

(** The bucket follows the double product, not the exact one: the double
    [0.03] is below 3/100 and its product with 1000000 rounds to 30000.0. *)
Example fuel_as_int_follows_rounding :
  (Double.d_0_03 * 1000000 < 30000)%Q /\
  fuel_as_int Double.double_mul
    {| current_location := 0%nat; dropped_so_far := ∅; fuel := Double.d_0_03 |} = Ok 30000%Z.
Proof. split; by vm_compute. Qed.

(** A fuel whose product with 1000000 overflows is accepted by the
    constructor, and comparing or hashing the state raises. *)
Example huge_fuel_raises :
  let s := {| current_location := 0%nat; dropped_so_far := ∅; fuel := Double.d_2e302 |} in
  RelaxedDeliveriesState__init__ 0%nat ∅ Double.d_2e302 = Ok s /\
  RelaxedDeliveriesState__eq__ Double.double_mul s s = Raised OverflowError /\
  RelaxedDeliveriesState__hash__ tuple_hash Double.double_mul s = Raised OverflowError.
Proof. cbv zeta. repeat split; by vm_compute. Qed.


End LineInstance.

(** ** The distances cache *)

Section CacheProperties.

Context {Junction : Type} `{!EqDecision Junction, !Countable Junction}.
Variable calc_air_distance_from : Junction -> Junction -> Q.

Local Abbreviation get_distance := (_get_distance_between_junctions calc_air_distance_from).
Local Abbreviation calls_on := (call_sequence calc_air_distance_from).

Lemma pair_key_comm (p1 p2 : Junction) : ({[p1; p2]} : gset Junction) = {[p2; p1]}.
Proof. apply (comm_L (∪)). Qed.

(** A call leaves its result under the key of the pair and keeps every
    entry the cache already had. *)
Lemma get_distance_cached (a b : Junction) (cache : gmap (gset Junction) Q) :
  (get_distance a b cache).2 !! ({[a; b]} : gset Junction) = Some (get_distance a b cache).1 /\
  cache ⊆ (get_distance a b cache).2.
Proof.
  unfold _get_distance_between_junctions.
  destruct (cache !! ({[a; b]} : gset Junction)) as [v|] eqn:E; simpl.
  - split; [exact E | reflexivity].
  - split; [apply lookup_insert_eq | by apply insert_subseteq].
Qed.

Lemma call_sequence_cached (calls : list (Junction * Junction))
    (cache : gmap (gset Junction) Q) :
  cache ⊆ (calls_on calls cache).2 /\
  forall i a b v,
    calls !! i = Some (a, b) -> (calls_on calls cache).1 !! i = Some v ->
    (calls_on calls cache).2 !! ({[a; b]} : gset Junction) = Some v.
Proof.
  revert cache. induction calls as [|[a0 b0] calls IH]; intros cache.
  - split; [reflexivity|]. intros i a b v Hi. by rewrite lookup_nil in Hi.
  - cbn [call_sequence].
    destruct (get_distance_cached a0 b0 cache) as [Hhere Hsub].
    destruct (get_distance a0 b0 cache) as [d c'] eqn:Eg. simpl in Hhere, Hsub.
    destruct (IH c') as [Hsub' Hrest].
    destruct (calls_on calls c') as [ds c''] eqn:Er. simpl in *.
    split; [by etrans|].
    intros [|i] a b v Hi Hv; simpl in *.
    + inversion Hi; inversion Hv; subst. by eapply lookup_weaken.
    + eauto.
Qed.

Lemma filter_key_length {V} (l : list (gset Junction * V)) (k : gset Junction) :
  NoDup l.*1 -> length (filter (fun kv => kv.1 = k) l) <= 1.
Proof.
  induction l as [|[k0 v0] l IH]; intros Hnd; [simpl; lia|].
  apply NoDup_cons in Hnd as [Hnotin Hnd]. rewrite filter_cons. simpl.
  destruct (decide (k0 = k)) as [->|]; [|auto].
  assert (filter (fun kv : gset Junction * V => kv.1 = k) l = []) as ->; [|simpl; lia].
  destruct (filter (fun kv : gset Junction * V => kv.1 = k) l) as [|[k1 v1] l'] eqn:E;
    [done|].
  assert (Hin : (k1, v1) ∈ filter (fun kv : gset Junction * V => kv.1 = k) l)
    by (rewrite E; left).
  apply list_elem_of_filter in Hin as [Hk Hin]. simpl in Hk. subst k1.
  exfalso. apply Hnotin. apply list_elem_of_fmap. by exists (k, v1).
Qed.

(** C7. In any sequence of calls on one cache, a call on [(p1, p2)] and a
    call on [(p2, p1)] return the same distance, whichever comes first and
    whatever happens in between; and after any sequence of calls the cache
    holds at most one entry for the unordered pair, the same for both orders
    of the pair. *)
Theorem cached_distance_symmetric (calls : list (Junction * Junction))
    (cache : gmap (gset Junction) Q) (p1 p2 : Junction) :
  (forall i j v1 v2,
      calls !! i = Some (p1, p2) -> calls !! j = Some (p2, p1) ->
      (calls_on calls cache).1 !! i = Some v1 ->
      (calls_on calls cache).1 !! j = Some v2 ->
      v1 = v2) /\
  length (entries_for_pair (calls_on calls cache).2 p1 p2) <= 1 /\
  entries_for_pair (calls_on calls cache).2 p1 p2 =
    entries_for_pair (calls_on calls cache).2 p2 p1.
Proof.
  split; [|split].
  - intros i j v1 v2 Hi Hj Hv1 Hv2.
    destruct (call_sequence_cached calls cache) as [_ Hc].
    pose proof (Hc _ _ _ _ Hi Hv1) as E1.
    pose proof (Hc _ _ _ _ Hj Hv2) as E2.
    rewrite (pair_key_comm p2 p1) in E2. congruence.
  - apply filter_key_length, NoDup_fst_map_to_list.
  - unfold entries_for_pair. by rewrite (pair_key_comm p1 p2).
Qed.

End CacheProperties.

Lemma cached_distance_symmetric_witness :
  let calls := [(1%nat, 2%nat); (3%nat, 1%nat); (2%nat, 1%nat)] in
  (forall i j v1 v2,
      calls !! i = Some (1%nat, 2%nat) -> calls !! j = Some (2%nat, 1%nat) ->
      (call_sequence Line.line_distance calls ∅).1 !! i = Some v1 ->
      (call_sequence Line.line_distance calls ∅).1 !! j = Some v2 ->
      v1 = v2) /\
  (call_sequence Line.line_distance calls ∅).1 !! 0%nat = Some 1%Q /\
  (call_sequence Line.line_distance calls ∅).1 !! 2%nat = Some 1%Q.
Proof.
  cbv zeta. split; [|split; reflexivity].
  apply (cached_distance_symmetric Line.line_distance
           [(1%nat, 2%nat); (3%nat, 1%nat); (2%nat, 1%nat)] ∅ 1%nat 2%nat).
Defined.

(** ** The relaxed-problem heuristic *)

Section RelaxedHeuristicProperties.

Context {Junction : Type} `{!EqDecision Junction, !Countable Junction}.
Variable AStar_solve_problem :
  heuristic_class -> @RelaxedDeliveriesProblem Junction _ _ -> result SearchResult.

Local Abbreviation estimate := (RelaxedDeliveriesHeuristic_estimate AStar_solve_problem).

Lemma problem_init_Ok_inv (i : @DeliveriesProblemInput Junction _ _) p :
  RelaxedDeliveriesProblem__init__ i = Ok p ->
  (input_start_point i ∉ input_drop_points i) /\
  (0 < input_gas_tank_init_fuel i)%Q /\
  start_point p = input_start_point i /\
  drop_points p = input_drop_points i /\
  gas_stations p = input_gas_stations i /\
  gas_tank_capacity p = input_gas_tank_capacity i /\
  possible_stop_points p = input_drop_points i ∪ input_gas_stations i /\
  initial_state p = {| current_location := input_start_point i;
                       dropped_so_far := ∅;
                       fuel := input_gas_tank_init_fuel i |}.
Proof.
  unfold RelaxedDeliveriesProblem__init__, RelaxedDeliveriesState__init__.
  destruct (decide (input_start_point i ∉ input_drop_points i)); [|discriminate].
  destruct (Qlt_le_dec 0 (input_gas_tank_init_fuel i)); [|discriminate].
  intros E; inversion E; subst; simpl. repeat split; auto.
Qed.

(** C3. Whenever the relaxed sub-problem of a strict state can be built, it
    mirrors the state (start point, remaining drop points, gas stations,
    capacity and initial fuel), and the estimate is positive infinity
    exactly when the solver reports no final node for that sub-problem, and
    the cost of the reported final node otherwise. *)
Theorem relaxed_estimate_is_solver_outcome
    (problem : @StrictDeliveriesProblem Junction _ _)
    (state : @StrictDeliveriesState Junction _ _)
    (sub_problem : @RelaxedDeliveriesProblem Junction _ _) :
  RelaxedDeliveriesProblem__init__ (sub_problem_input problem state) = Ok sub_problem ->
  (start_point sub_problem = strict_current_location state /\
   drop_points sub_problem = strict_drop_points problem ∖ strict_dropped_so_far state /\
   gas_stations sub_problem = strict_gas_stations problem /\
   gas_tank_capacity sub_problem = strict_gas_tank_capacity problem /\
   initial_state sub_problem =
     {| current_location := strict_current_location state;
        dropped_so_far := ∅;
        fuel := strict_fuel state |}) /\
  (estimate problem state = Ok np_inf <->
     exists astar_solution,
       AStar_solve_problem MSTAirDistHeuristic sub_problem = Ok astar_solution /\
       final_search_node astar_solution = None) /\
  (forall astar_solution node,
     AStar_solve_problem MSTAirDistHeuristic sub_problem = Ok astar_solution ->
     final_search_node astar_solution = Some node ->
     estimate problem state = Ok (Finite (cost node))).
Proof.
  intros Hinit. pose proof (problem_init_Ok_inv _ _ Hinit) as Hm. simpl in Hm.
  destruct Hm as (_ & _ & Hs & Hd & Hg & Hc & _ & Hi).
  split; [by repeat split|].
  unfold RelaxedDeliveriesHeuristic_estimate. rewrite Hinit.
  destruct (AStar_solve_problem MSTAirDistHeuristic sub_problem) as [r|e]; split.
  - destruct (final_search_node r) as [node|] eqn:En; split.
    + discriminate.
    + intros (r' & Er & Hn). inversion Er; subst. congruence.
    + intros _. by exists r.
    + done.
  - intros r' node Er En. inversion Er; subst. by rewrite En.
  - split; [discriminate|]. intros (r' & Er & _). discriminate.
  - intros r' node Er. discriminate.
Qed.

(** The sub-problem cannot be built exactly when the current location is a
    drop point still to be served or the fuel of the state is not positive,
    and then the estimate raises without calling the solver; once the
    sub-problem is built, the estimate raises exactly what the solver
    raises. *)
Lemma relaxed_estimate_raises_iff
    (problem : @StrictDeliveriesProblem Junction _ _)
    (state : @StrictDeliveriesState Junction _ _) :
  (RelaxedDeliveriesProblem__init__ (sub_problem_input problem state) =
     Raised AssertionError <->
   strict_current_location state ∈
     strict_drop_points problem ∖ strict_dropped_so_far state \/
   (strict_fuel state <= 0)%Q) /\
  (RelaxedDeliveriesProblem__init__ (sub_problem_input problem state) =
     Raised AssertionError ->
   estimate problem state = Raised AssertionError) /\
  (forall sub_problem,
     RelaxedDeliveriesProblem__init__ (sub_problem_input problem state) = Ok sub_problem ->
     forall e, estimate problem state = Raised e <->
               AStar_solve_problem MSTAirDistHeuristic sub_problem = Raised e).
Proof.
  split; [|split].
  - unfold RelaxedDeliveriesProblem__init__, RelaxedDeliveriesState__init__,
      sub_problem_input. simpl.
    destruct (decide (strict_current_location state ∉
                      strict_drop_points problem ∖ strict_dropped_so_far state))
      as [Hn|Hy].
    + destruct (Qlt_le_dec 0 (strict_fuel state)) as [Hpos|Hneg].
      * split; [discriminate|]. intros [Hin|Hle]; [done | lra].
      * split; auto.
    + split; [|done]. intros _. left.
      destruct (decide (strict_current_location state ∈
                        strict_drop_points problem ∖ strict_dropped_so_far state)); done.
  - unfold RelaxedDeliveriesHeuristic_estimate. by intros ->.
  - intros sub_problem Hinit e. unfold RelaxedDeliveriesHeuristic_estimate.
    rewrite Hinit.
    destruct (AStar_solve_problem MSTAirDistHeuristic sub_problem) as [r|e']; [|split; intros E; inversion E; done].
    destruct (final_search_node r); split; discriminate.
Qed.

End RelaxedHeuristicProperties.

(** ** The spanning forest dominates every distance it connects *)

Lemma sum_weights_ge (weight : nat -> Q) (n l : nat) :
  (forall k, 0 <= weight k)%Q -> l < n -> (weight l <= sum_weights weight n)%Q.
Proof.
  intros Hpos. induction n as [|n IH]; intros Hl; [lia|].
  cbn [sum_weights].
  assert (Hs : forall m, (0 <= sum_weights weight m)%Q).
  { induction m as [|m IHm]; cbn [sum_weights]; [lra|]. specialize (Hpos m). lra. }
  destruct (decide (l = n)) as [->|Hne].
  - specialize (Hs n). lra.
  - specialize (Hpos n). assert (l < n) as Hlt by lia. specialize (IH Hlt). lra.
Qed.

Lemma sum_weights_reweigh (weight : nat -> Q) (r : nat) (a : Q) (n : nat) :
  (sum_weights (reweigh weight r a) n ==
   if decide (r < n)%nat then sum_weights weight n - weight r + a
   else sum_weights weight n)%Q.
Proof.
  induction n as [|n IH]; cbn [sum_weights].
  - destruct (decide (r < 0)); [lia | lra].
  - unfold reweigh at 2.
    destruct (Nat.eqb_spec n r) as [->|Hne].
    + destruct (decide (r < r)); [lia|]. destruct (decide (r < S r)); [|lia].
      rewrite IH. lra.
    + destruct (decide (r < n)), (decide (r < S n)); try lia; rewrite IH; lra.
Qed.

Lemma sum_weights_merged (weight : nat -> Q) (r1 r2 : nat) (w : Q) (n : nat) :
  r1 <> r2 -> r1 < n -> r2 < n ->
  (sum_weights (merged_weight weight r1 r2 w) n == sum_weights weight n + w)%Q.
Proof.
  intros Hne H1 H2. unfold merged_weight.
  rewrite sum_weights_reweigh. destruct (decide (r1 < n)); [|lia].
  rewrite sum_weights_reweigh. destruct (decide (r2 < n)); [|lia].
  unfold reweigh. destruct (Nat.eqb_spec r1 r2); [lia | lra].
Qed.

Lemma entries_sum_cons (e : entry) (t : list entry) :
  entries_sum (e :: t) = (e.2 + entries_sum t)%Q.
Proof. reflexivity. Qed.

Section KruskalBound.

(** [n] vertices; [E] is a distance between vertices that vanishes on the
    diagonal. *)
Variable n : nat.
Variable E : nat -> nat -> Q.
Hypothesis E_diag : forall x, x < n -> (E x x == 0)%Q.
Hypothesis E_nonneg : forall x y, x < n -> y < n -> (0 <= E x y)%Q.
Hypothesis E_sym : forall x y, x < n -> y < n -> (E x y == E y x)%Q.
Hypothesis E_triangle :
  forall x y z, x < n -> y < n -> z < n -> (E x z <= E x y + E y z)%Q.

Local Abbreviation forest_bound := (forest_bound n E).
Local Abbreviation edges_in_range := (edges_in_range n E).

Lemma forest_bound_join (label : nat -> nat) (weight : nat -> Q) u v w :
  forest_bound label weight ->
  u < n -> v < n -> (E u v <= w)%Q -> label u <> label v ->
  forest_bound (join_subtrees label (label u) (label v))
               (merged_weight weight (label u) (label v) w).
Proof.
  intros (Hpos & Hlab & Hb) Hu Hv Hw Hne.
  assert (Hw0 : (0 <= w)%Q) by (specialize (E_nonneg u v Hu Hv); lra).
  pose proof (Hpos (label u)) as Hp1. pose proof (Hpos (label v)) as Hp2.
  split; [|split].
  - intros l. unfold merged_weight, reweigh.
    destruct (Nat.eqb_spec l (label u)); [lra|].
    destruct (Nat.eqb_spec l (label v)); [lra|]. apply Hpos.
  - intros x Hx. unfold join_subtrees. destruct (Nat.eqb_spec (label x) (label v)); auto.
  - intros x y Hx Hy. unfold join_subtrees, merged_weight, reweigh.
    destruct (Nat.eqb_spec (label x) (label v)) as [Exv|Nxv];
      destruct (Nat.eqb_spec (label y) (label v)) as [Eyv|Nyv]; intros El.
    + destruct (Nat.eqb_spec (label u) (label u)) as [_|Hc]; [|done].
      assert (Hxy : label x = label y) by congruence.
      specialize (Hb x y Hx Hy Hxy). rewrite Exv in Hb. lra.
    + destruct (Nat.eqb_spec (label u) (label u)) as [_|Hc]; [|done].
      pose proof (Hb x v Hx Hv Exv) as B1. rewrite Exv in B1.
      assert (Hyu : label u = label y) by congruence.
      pose proof (Hb u y Hu Hy Hyu) as B2.
      pose proof (E_triangle x v y Hx Hv Hy) as T1.
      pose proof (E_triangle v u y Hv Hu Hy) as T2.
      pose proof (E_sym u v Hu Hv) as S1. lra.
    + assert (Hxu : label x = label u) by congruence.
      rewrite Hxu.
      destruct (Nat.eqb_spec (label u) (label u)) as [_|Hc]; [|done].
      pose proof (Hb x u Hx Hu Hxu) as B1. rewrite Hxu in B1.
      assert (Hvy : label v = label y) by congruence.
      pose proof (Hb v y Hv Hy Hvy) as B2.
      pose proof (E_triangle x u y Hx Hu Hy) as T1.
      pose proof (E_triangle u v y Hu Hv Hy) as T2. lra.
    + pose proof (Hb x y Hx Hy El) as B.
      destruct (Nat.eqb_spec (label x) (label u)) as [Exu|Nxu].
      * rewrite Exu in B. lra.
      * destruct (Nat.eqb_spec (label x) (label v)); [done | exact B].
Qed.

Lemma join_keeps_together (label : nat -> nat) r1 r2 x y :
  label x = label y -> join_subtrees label r1 r2 x = join_subtrees label r1 r2 y.
Proof. unfold join_subtrees. by intros ->. Qed.

Lemma join_joins_ends (label : nat -> nat) u v :
  join_subtrees label (label u) (label v) u = join_subtrees label (label u) (label v) v.
Proof.
  unfold join_subtrees. rewrite Nat.eqb_refl. by destruct (Nat.eqb_spec (label u) (label v)).
Qed.

(** Two vertices already in one subtree, or joined by an edge still to be
    processed, are no further apart than the total weight of the forest
    that results. *)
Lemma kruskal_bound (edges : list entry) :
  forall (label : nat -> nat) (weight : nat -> Q),
    forest_bound label weight ->
    edges_in_range edges ->
    forall x y, x < n -> y < n ->
      (label x = label y \/ exists w, (x, y, w) ∈ edges) ->
      (E x y <= sum_weights weight n + entries_sum (kruskal edges label))%Q.
Proof.
  induction edges as [|[[u v] w] edges IH]; intros label weight Hf Hr x y Hx Hy Hxy.
  - destruct Hxy as [El | [w Hin]]; [|inversion Hin].
    destruct Hf as (Hpos & Hlab & Hb).
    pose proof (Hb x y Hx Hy El) as B.
    pose proof (sum_weights_ge weight n (label x) Hpos (Hlab x Hx)) as S.
    cbn. lra.
  - destruct (Hr u v w) as (Hu & Hv & Hw); [left|].
    assert (Hr' : edges_in_range edges).
    { intros u' v' w' Hin. apply Hr. by right. }
    cbn [kruskal].
    destruct (Nat.eqb_spec (label u) (label v)) as [Euv|Nuv].
    + apply IH; auto.
      destruct Hxy as [El | [w' Hin]]; [by left|].
      apply elem_of_cons in Hin as [Ehd | Hin]; [|right; eauto].
      inversion Ehd; subst. by left.
    + rewrite entries_sum_cons. cbn [snd].
      pose proof (forest_bound_join label weight u v w Hf Hu Hv Hw Nuv) as Hf'.
      pose proof (sum_weights_merged weight (label u) (label v) w n Nuv) as Hs.
      destruct Hf as (_ & Hlab & _).
      specialize (Hs (Hlab u Hu) (Hlab v Hv)).
      assert (B : (E x y <= sum_weights (merged_weight weight (label u) (label v) w) n +
                     entries_sum (kruskal edges (join_subtrees label (label u) (label v))))%Q).
      { apply IH; auto.
        destruct Hxy as [El | [w' Hin]]; [left; by apply join_keeps_together|].
        apply elem_of_cons in Hin as [Ehd | Hin]; [|right; eauto].
        inversion Ehd; subst. left. apply join_joins_ends. }
      lra.
Qed.

Lemma kruskal_sum_nonneg (edges : list entry) (label : nat -> nat) :
  edges_in_range edges -> (0 <= entries_sum (kruskal edges label))%Q.
Proof.
  revert label. induction edges as [|[[u v] w] edges IH]; intros label Hr; [cbn; lra|].
  destruct (Hr u v w) as (Hu & Hv & Hw); [left|].
  assert (Hr' : edges_in_range edges).
  { intros u' v' w' Hin. apply Hr. by right. }
  cbn [kruskal]. destruct (Nat.eqb (label u) (label v)); [auto|].
  rewrite entries_sum_cons. cbn [snd].
  specialize (IH (join_subtrees label (label u) (label v)) Hr').
  specialize (E_nonneg u v Hu Hv). lra.
Qed.

End KruskalBound.

(** ** The distances matrix *)

Lemma matrix_get_set (m : list (list Q)) (i j : nat) (v : Q) (a b : nat) :
  matrix_get (matrix_set m i j v) a b =
  if decide (a = i /\ b = j) then matrix_get m i j ≫= (fun _ => Some v)
  else matrix_get m a b.
Proof.
  unfold matrix_get, matrix_set. rewrite list_lookup_alter.
  destruct (decide (i = a)) as [<-|Hia].
  - destruct (m !! i) as [row|] eqn:Erow; simpl.
    + destruct (decide (b = j)) as [->|Hbj].
      * rewrite decide_True by done.
        destruct (row !! j) as [old|] eqn:Eold; simpl.
        -- apply list_lookup_insert_eq. by eapply lookup_lt_Some.
        -- rewrite list_insert_ge; [done|]. by apply lookup_ge_None.
      * rewrite decide_False by (intros [_ ?]; done).
        by apply list_lookup_insert_ne.
    + by destruct (decide (i = i /\ b = j)).
  - rewrite decide_False by (intros [? _]; done). done.
Qed.

Lemma matrix_set_is_Some (m : list (list Q)) (i j : nat) (v : Q) (a b : nat) :
  is_Some (matrix_get (matrix_set m i j v) a b) <-> is_Some (matrix_get m a b).
Proof.
  rewrite matrix_get_set. destruct (decide (a = i /\ b = j)) as [[-> ->]|]; [|done].
  destruct (matrix_get m i j); simpl; split; intros [? ?]; eauto; done.
Qed.

Lemma np_zeros_get (n a b : nat) :
  matrix_get (np_zeros n n) a b = if decide (a < n /\ b < n) then Some 0%Q else None.
Proof.
  unfold matrix_get, np_zeros.
  destruct (decide (a < n /\ b < n)) as [[Ha Hb]|Hn].
  - rewrite lookup_replicate_2 by done. simpl. by rewrite lookup_replicate_2.
  - destruct (decide (a < n)) as [Ha|Ha].
    + rewrite lookup_replicate_2 by done. simpl.
      apply lookup_replicate_None. lia.
    + assert (E : replicate n (replicate n 0%Q) !! a = None)
        by (apply lookup_replicate_None; lia).
      by rewrite E.
Qed.

Lemma foldl_seq_invariant {S} (P : nat -> S -> Prop) (f : S -> nat -> S) (n : nat) (s0 : S) :
  P 0 s0 ->
  (forall k s, k < n -> P k s -> P (Datatypes.S k) (f s k)) ->
  P n (foldl f s0 (seq 0 n)).
Proof.
  intros H0 Hstep. induction n as [|n IH]; [exact H0|].
  rewrite seq_S, foldl_app. simpl. apply Hstep; [lia|].
  apply IH. intros k s Hk. apply Hstep. lia.
Qed.

Section MatrixProperties.

Context {Junction : Type} `{!EqDecision Junction, !Countable Junction}.
Variable calc_air_distance_from : Junction -> Junction -> Q.
Hypothesis calc_sym : forall a b, (calc_air_distance_from a b == calc_air_distance_from b a)%Q.

Local Abbreviation dist := calc_air_distance_from.
Local Abbreviation get_distance := (_get_distance_between_junctions calc_air_distance_from).
Local Abbreviation computed := (cache_computed calc_air_distance_from).

Lemma cache_computed_empty : computed ∅.
Proof. intros k v Hk. by rewrite lookup_empty in Hk. Qed.

Lemma cache_computed_lookup (cache : gmap (gset Junction) Q) (a b : Junction) v :
  computed cache -> cache !! ({[a; b]} : gset Junction) = Some v -> (v == dist a b)%Q.
Proof.
  intros Hc Hl. destruct (Hc _ _ Hl) as (a' & b' & Ek & ->).
  assert (Ha' : a' ∈ ({[a; b]} : gset Junction)) by (rewrite Ek; apply elem_of_union_l, elem_of_singleton; done).
  assert (Hb' : b' ∈ ({[a; b]} : gset Junction)) by (rewrite Ek; apply elem_of_union_r, elem_of_singleton; done).
  assert (Ha : a ∈ ({[a'; b']} : gset Junction)) by (rewrite <- Ek; apply elem_of_union_l, elem_of_singleton; done).
  assert (Hb : b ∈ ({[a'; b']} : gset Junction)) by (rewrite <- Ek; apply elem_of_union_r, elem_of_singleton; done).
  rewrite elem_of_union, !elem_of_singleton in Ha', Hb', Ha, Hb.
  destruct Ha' as [->| ->], Hb' as [->| ->]; try reflexivity; try apply calc_sym.
  - destruct Hb as [->| ->]; reflexivity.
  - destruct Ha as [->| ->]; reflexivity.
Qed.

Lemma get_distance_computed (a b : Junction) (cache : gmap (gset Junction) Q) :
  computed cache ->
  ((get_distance a b cache).1 == dist a b)%Q /\ computed (get_distance a b cache).2.
Proof.
  intros Hc. unfold _get_distance_between_junctions.
  destruct (cache !! ({[a; b]} : gset Junction)) as [v|] eqn:E; simpl.
  - split; [by eapply cache_computed_lookup | done].
  - split; [reflexivity|].
    intros k v Hk. destruct (decide (k = {[a; b]})) as [->|Hne].
    + rewrite lookup_insert_eq in Hk. inversion Hk; subst. by exists a, b.
    + rewrite lookup_insert_ne in Hk by done. by apply Hc.
Qed.

Lemma index_distance_sym (js : list Junction) (i j : nat) :
  (index_distance dist js i j == index_distance dist js j i)%Q.
Proof.
  unfold index_distance.
  destruct (decide (i = j)) as [->|Hne].
  - destruct (decide (j = j)); [reflexivity | done].
  - destruct (decide (j = i)); [by subst|].
    destruct (js !! i), (js !! j); try reflexivity. apply calc_sym.
Qed.

Lemma filled_set (js : list Junction) (m : list (list Q)) (i j : nat) (v : Q) (a b : nat) :
  (v == index_distance dist js i j)%Q ->
  filled dist js m a b -> filled dist js (matrix_set m i j v) a b.
Proof.
  intros Hv (old & Hget & Hold). unfold filled. rewrite matrix_get_set.
  destruct (decide (a = i /\ b = j)) as [[-> ->]|]; [|by exists old].
  rewrite Hget. simpl. by exists v.
Qed.

Lemma filled_set_here (js : list Junction) (m : list (list Q)) (i j : nat) (v : Q) :
  is_Some (matrix_get m i j) -> (v == index_distance dist js i j)%Q ->
  filled dist js (matrix_set m i j v) i j.
Proof.
  intros [old Hget] Hv. unfold filled. rewrite matrix_get_set.
  rewrite decide_True by done. rewrite Hget. simpl. by exists v.
Qed.

Lemma fill_entry_invariant (js : list Junction) (i j : nat) st :
  i < length js -> j < length js ->
  fill_invariant dist js i j st ->
  fill_invariant dist js i (S j) (fill_entry dist js i j st).
Proof.
  intros Hi Hj (Hc & Hshape & Hfill). unfold fill_entry.
  destruct (decide (i = j)) as [->|Hne].
  - split; [done|]. split; [done|].
    intros a b Ha Hb Hpos. apply Hfill; auto.
    destruct Hpos as [?|[[-> Hlt]|?]]; auto.
    destruct (decide (b = j)) as [->|]; [auto|]. right; left. split; [done|lia].
  - destruct (lookup_lt_is_Some_2 js i Hi) as [ja Eja].
    destruct (lookup_lt_is_Some_2 js j Hj) as [jb Ejb].
    rewrite Eja, Ejb.
    destruct (get_distance_computed ja jb st.1 Hc) as [Hd Hc'].
    destruct (get_distance ja jb st.1) as [d c'] eqn:Eg. simpl in Hd, Hc'.
    assert (Hij : (d == index_distance dist js i j)%Q).
    { unfold index_distance. rewrite decide_False by done. by rewrite Eja, Ejb. }
    assert (Hji : (d == index_distance dist js j i)%Q).
    { rewrite Hij. apply index_distance_sym. }
    split; [done|]. split.
    + intros a b. simpl. rewrite !matrix_set_is_Some. apply Hshape.
    + intros a b Ha Hb Hpos. simpl.
      apply filled_set; [done|].
      destruct (decide (a = i /\ b = j)) as [[-> ->]|Hnot].
      * apply filled_set_here; [|done]. apply Hshape. auto.
      * apply filled_set; [done|]. apply Hfill; auto.
        destruct Hpos as [?|[[-> Hlt]|?]]; auto.
        right; left. split; [done|].
        destruct (decide (b = j)) as [->|]; [exfalso; auto | lia].
Qed.

Lemma fill_row_invariant (js : list Junction) (i : nat) st :
  i < length js ->
  fill_invariant dist js i 0 st ->
  fill_invariant dist js (S i) 0 (fill_row dist js (length js) i st).
Proof.
  intros Hi H0.
  assert (Hrow : fill_invariant dist js i (length js) (fill_row dist js (length js) i st)).
  { unfold fill_row.
    apply (foldl_seq_invariant (fun j st => fill_invariant dist js i j st)); [done|].
    intros k s Hk Hinv. by apply fill_entry_invariant. }
  destruct Hrow as (Hc & Hshape & Hfill). split; [done|]. split; [done|].
  intros a b Ha Hb Hpos. apply Hfill; auto.
  destruct Hpos as [Hlt|[[_ Hlt]|?]]; [|lia|auto].
  destruct (decide (a = i)) as [->|]; [right; left; auto | left; lia].
Qed.

(** After the two loops every cell of the matrix holds the distance of its
    two junctions, and the cache is still made of computed distances. *)
Lemma fill_distances_matrix_spec (js : list Junction) (cache : gmap (gset Junction) Q) :
  computed cache ->
  let st := fill_distances_matrix dist js cache in
  computed st.1 /\
  (forall a b, is_Some (matrix_get st.2 a b) <-> a < length js /\ b < length js) /\
  (forall a b, a < length js -> b < length js -> filled dist js st.2 a b).
Proof.
  intros Hc st.
  assert (Hend : fill_invariant dist js (length js) 0 st).
  { unfold st, fill_distances_matrix.
    apply (foldl_seq_invariant (fun i st => fill_invariant dist js i 0 st)).
    - split; [done|]. split.
      + intros a b. simpl. rewrite np_zeros_get.
        destruct (decide (a < length js /\ b < length js)); split; auto.
        * by intros [? ?].
        * done.
      + intros a b Ha Hb Hpos. simpl.
        destruct Hpos as [?|[[_ ?]|<-]]; [lia|lia|].
        exists 0%Q. rewrite np_zeros_get, decide_True by done. split; [done|].
        unfold index_distance. by rewrite decide_True.
    - intros k s Hk Hinv. by apply fill_row_invariant. }
  destruct Hend as (Hc' & Hshape & Hfill). split; [done|]. split; [done|].
  intros a b Ha Hb. apply Hfill; auto.
Qed.

End MatrixProperties.

(** ** The edges handed to the spanning-tree routine *)

Lemma elem_of_entries (m : list (list Q)) (i j : nat) (w : Q) :
  (i, j, w) ∈ entries m <-> matrix_get m i j = Some w.
Proof.
  unfold entries, matrix_get. rewrite list_elem_of_In, in_concat. split.
  - intros (l & Hl & Hx). apply list_elem_of_In in Hl, Hx.
    apply elem_of_lookup_imap in Hl as (i' & row & -> & Hrow).
    apply elem_of_lookup_imap in Hx as (j' & w' & E & Hw).
    inversion E; subst. by rewrite Hrow.
  - destruct (m !! i) as [row|] eqn:Erow; simpl; [|done]. intros Hw.
    exists (imap (fun j w => (i, j, w)) row). split; apply list_elem_of_In.
    + apply (elem_of_lookup_imap_2 (fun i row => imap (fun j w => (i, j, w)) row) m row i Erow).
    + apply (elem_of_lookup_imap_2 (fun j w => (i, j, w)) row w j Hw).
Qed.

Lemma elem_of_nonzero_entries (m : list (list Q)) (i j : nat) (w : Q) :
  (i, j, w) ∈ nonzero_entries m <-> matrix_get m i j = Some w /\ ~ (w == 0)%Q.
Proof.
  unfold nonzero_entries. rewrite list_elem_of_filter, elem_of_entries. simpl.
  rewrite <- Qeq_bool_iff. destruct (Qeq_bool w 0); split; intros [? ?]; split; auto; done.
Qed.

Lemma elem_of_insert_by_weight (e x : entry) (l : list entry) :
  e ∈ insert_by_weight x l <-> e = x \/ e ∈ l.
Proof.
  induction l as [|y l IH]; cbn [insert_by_weight].
  - by rewrite elem_of_cons.
  - destruct (Qle_bool x.2 y.2).
    + by rewrite elem_of_cons.
    + rewrite !elem_of_cons, IH. tauto.
Qed.

Lemma elem_of_sort_by_weight (e : entry) (l : list entry) :
  e ∈ sort_by_weight l <-> e ∈ l.
Proof.
  unfold sort_by_weight. induction l as [|x l IH]; cbn [foldr]; [done|].
  by rewrite elem_of_insert_by_weight, IH, elem_of_cons.
Qed.

Lemma sum_weights_zero (n : nat) : (sum_weights (fun _ => 0) n == 0)%Q.
Proof. induction n as [|n IH]; cbn [sum_weights]; [reflexivity | rewrite IH; lra]. Qed.

(** ** MaxAirDist never exceeds MSTAirDist *)

Section Dominance.

Context {Junction : Type} `{!EqDecision Junction, !Countable Junction}.
Variable calc_air_distance_from : Junction -> Junction -> Q.
Hypothesis calc_sym : forall a b, (calc_air_distance_from a b == calc_air_distance_from b a)%Q.
Hypothesis calc_nonneg : forall a b, (0 <= calc_air_distance_from a b)%Q.
Hypothesis calc_triangle :
  forall a b c, (calc_air_distance_from a c <=
                 calc_air_distance_from a b + calc_air_distance_from b c)%Q.

Local Abbreviation dist := calc_air_distance_from.
Local Abbreviation State := (@RelaxedDeliveriesState Junction _ _).
Local Abbreviation Problem := (@RelaxedDeliveriesProblem Junction _ _).

Lemma index_distance_nonneg (js : list Junction) (i j : nat) :
  (0 <= index_distance dist js i j)%Q.
Proof.
  unfold index_distance. destruct (decide (i = j)); [lra|].
  destruct (js !! i), (js !! j); try lra. apply calc_nonneg.
Qed.

Lemma index_distance_triangle (js : list Junction) (x y z : nat) :
  x < length js -> y < length js -> z < length js ->
  (index_distance dist js x z <= index_distance dist js x y + index_distance dist js y z)%Q.
Proof.
  intros Hx Hy Hz.
  destruct (lookup_lt_is_Some_2 js x Hx) as [jx Ex].
  destruct (lookup_lt_is_Some_2 js y Hy) as [jy Ey].
  destruct (lookup_lt_is_Some_2 js z Hz) as [jz Ez].
  pose proof (calc_nonneg jx jy) as Nxy. pose proof (calc_nonneg jy jz) as Nyz.
  pose proof (calc_triangle jx jy jz) as T.
  unfold index_distance.
  destruct (decide (x = z)) as [Exz|Nxz], (decide (x = y)) as [Exy|Nxy'],
    (decide (y = z)) as [Eyz|Nyz']; subst; try done;
    rewrite ?Ex, ?Ey, ?Ez; simplify_eq; lra.
Qed.

(** The weight of the spanning forest of the filled matrix is no smaller
    than the distance between any two of its junctions. *)
Lemma mst_weight_dominates (js : list Junction) (cache : gmap (gset Junction) Q) :
  cache_computed dist cache ->
  let weight :=
    entries_sum (minimum_spanning_tree (fill_distances_matrix dist js cache).2) in
  (0 <= weight)%Q /\
  (forall q c, q ∈ js -> c ∈ js -> q <> c -> (dist q c <= weight)%Q).
Proof.
  intros Hc weight.
  destruct (fill_distances_matrix_spec dist calc_sym js cache Hc) as (_ & Hshape & Hfill).
  set (m := (fill_distances_matrix dist js cache).2) in *.
  set (n := length js) in *.
  set (E := index_distance dist js).
  assert (Hrange : edges_in_range n E (sort_by_weight (nonzero_entries m))).
  { intros u v w Hin.
    apply elem_of_sort_by_weight, elem_of_nonzero_entries in Hin as [Hget _].
    assert (Hb : u < n /\ v < n) by (apply Hshape; eauto).
    destruct Hb as [Hu Hv]. split; [done|]. split; [done|].
    destruct (Hfill u v Hu Hv) as (w' & Hget' & Hw').
    assert (w = w') as -> by congruence. unfold E. rewrite Hw'. lra. }
  assert (Hpos : (0 <= weight)%Q).
  { unfold weight, minimum_spanning_tree.
    apply (kruskal_sum_nonneg n E); [|done].
    intros x y _ _. apply index_distance_nonneg. }
  split; [done|].
  intros q c Hq Hcin Hne.
  apply list_elem_of_lookup in Hq as [iq Hiq].
  apply list_elem_of_lookup in Hcin as [ic Hic].
  assert (Hiqn : iq < n) by (by eapply lookup_lt_Some).
  assert (Hicn : ic < n) by (by eapply lookup_lt_Some).
  assert (Hidx : iq <> ic) by (intros ->; congruence).
  assert (HE : E iq ic = dist q c).
  { unfold E, index_distance. rewrite decide_False by done. by rewrite Hiq, Hic. }
  destruct (Hfill iq ic Hiqn Hicn) as (v & Hget & Hv). fold E in Hv. rewrite HE in Hv.
  destruct (Qeq_dec v 0) as [Hz|Hnz]; [rewrite <- Hv, Hz; done|].
  assert (B : (E iq ic <= sum_weights (fun _ => 0) n +
                 entries_sum (kruskal (sort_by_weight (nonzero_entries m))
                                      (fun v => v)))%Q).
  { apply (kruskal_bound n E); auto.
    - intros x y _ _. apply index_distance_nonneg.
    - intros x y _ _. by apply index_distance_sym.
    - intros x y z. apply index_distance_triangle.
    - split; [intros; lra|]. split; [done|].
      intros x y _ _ <-. unfold E, index_distance. rewrite decide_True by done. lra.
    - right. exists v. apply elem_of_sort_by_weight, elem_of_nonzero_entries. done. }
  rewrite sum_weights_zero, HE in B. unfold weight, minimum_spanning_tree. lra.
Qed.

Lemma max_fold_le (f : Junction -> Q) (l : list Junction) (acc bound : Q) :
  (acc <= bound)%Q -> (forall q, q ∈ l -> (f q <= bound)%Q) ->
  (foldl (fun max_air_dist drop_point =>
            let air_dist := f drop_point in
            if Qlt_le_dec max_air_dist air_dist then air_dist else max_air_dist)
         acc l <= bound)%Q.
Proof.
  revert acc. induction l as [|q l IH]; intros acc Hacc Hall; [done|].
  cbn [foldl]. apply IH.
  - cbv zeta. destruct (Qlt_le_dec acc (f q)); [|done]. apply Hall. by left.
  - intros q' Hq'. apply Hall. by right.
Qed.

(** In a state of the state space the current location is never a drop
    point still to be served. *)
Lemma reachable_location_served (input : @DeliveriesProblemInput Junction _ _)
    (p : Problem) (s : State) :
  RelaxedDeliveriesProblem__init__ input = Ok p ->
  reachable dist p s ->
  current_location s ∈ drop_points p -> current_location s ∈ dropped_so_far s.
Proof.
  intros Hinit Hreach.
  apply problem_init_Ok_inv in Hinit as (Hstart & _ & _ & Hdp & _ & _ & _ & Hi).
  induction Hreach as [|s s' c Hreach IH Hin].
  - rewrite Hi, Hdp. simpl. intros Hd. done.
  - apply yielded_expand_sound in Hin as (q & _ & Hs).
    destruct Hs as (_ & _ & _ & _ & Hloc & _ & Hdrop & _).
    rewrite Hloc. intros Hq. destruct (Hdrop Hq) as [-> _].
    apply elem_of_union_r, elem_of_singleton. done.
Qed.

(** The comparison of the two estimates, for any state whose current
    location is not a drop point still to be served, or is at distance zero
    from itself. *)
Lemma max_le_mst_at (p : Problem) (s : State) (cache : gmap (gset Junction) Q) :
  (current_location s ∈ drop_points p ∖ dropped_so_far s ->
   (dist (current_location s) (current_location s) <= 0)%Q) ->
  cache_computed dist cache ->
  (MaxAirDistHeuristic_estimate dist p s <=
   (MSTAirDistHeuristic_estimate dist p s cache).1)%Q.
Proof.
  intros Hcur Hc.
  unfold MSTAirDistHeuristic_estimate, _calculate_junctions_air_dist_mst_weight.
  set (remained := drop_points p ∖ dropped_so_far s ∪ {[current_location s]}).
  destruct (mst_weight_dominates (elements remained) cache Hc) as [Hpos Hdom].
  destruct (fill_distances_matrix dist (elements remained) cache) as [c' m] eqn:Ef.
  simpl in *.
  unfold MaxAirDistHeuristic_estimate. apply max_fold_le; [done|].
  intros q Hq. apply elem_of_elements in Hq.
  destruct (decide (q = current_location s)) as [->|Hne].
  - specialize (Hcur Hq). lra.
  - apply Hdom; [| |done].
    + by apply elem_of_elements, elem_of_union_l.
    + by apply elem_of_elements, elem_of_union_r, elem_of_singleton.
Qed.


(** The cache of a heuristic instance starts empty and every estimate
    leaves it made of computed distances. *)
Lemma mst_estimate_keeps_cache (p : Problem) (s : State) (cache : gmap (gset Junction) Q) :
  cache_computed dist cache ->
  cache_computed dist (MSTAirDistHeuristic_estimate dist p s cache).2.
Proof.
  intros Hc. unfold MSTAirDistHeuristic_estimate, _calculate_junctions_air_dist_mst_weight.
  set (remained := drop_points p ∖ dropped_so_far s ∪ {[current_location s]}).
  destruct (fill_distances_matrix_spec dist calc_sym (elements remained) cache Hc)
    as (Hc' & _).
  by destruct (fill_distances_matrix dist (elements remained) cache).
Qed.

End Dominance.

(** ** The line instance: heuristics *)

Section LineHeuristics.

Import Line.

Local Abbreviation line_problem := (problem_of line_input).

Lemma line_distance_sym (a b : nat) : (line_distance a b == line_distance b a)%Q.
Proof.
  unfold line_distance.
  replace (Z.abs (Z.of_nat a - Z.of_nat b)) with (Z.abs (Z.of_nat b - Z.of_nat a)) by lia.
  reflexivity.
Qed.

Lemma line_distance_nonneg (a b : nat) : (0 <= line_distance a b)%Q.
Proof.
  unfold line_distance. change 0%Q with (inject_Z 0). rewrite <- Zle_Qle. lia.
Qed.

Lemma line_distance_triangle (a b c : nat) :
  (line_distance a c <= line_distance a b + line_distance b c)%Q.
Proof.
  unfold line_distance. rewrite <- inject_Z_plus, <- Zle_Qle. lia.
Qed.


Lemma relaxed_estimate_is_solver_outcome_witness :
  RelaxedDeliveriesHeuristic_estimate goal_only_solver
    line_strict_problem line_strict_state = Ok np_inf.
Proof.
  destruct (relaxed_estimate_is_solver_outcome goal_only_solver
              line_strict_problem line_strict_state
              (problem_of (sub_problem_input line_strict_problem line_strict_state)))
    as (_ & [_ Hinf] & _).
  - by vm_compute.
  - apply Hinf. exists {| final_search_node := None |}. split; by vm_compute.
Defined.

Lemma init_fails_iff_fuel_nonpositive_witness :
  RelaxedDeliveriesState__init__ 0%nat ∅ 0 = Raised AssertionError /\
  RelaxedDeliveriesState__init__ 0%nat ∅ (1 # 2) =
    Ok {| current_location := 0%nat; dropped_so_far := ∅; fuel := 1 # 2 |}.
Proof.
  split.
  - apply (init_fails_iff_fuel_nonpositive 0%nat ∅ 0). by vm_compute.
  - apply (init_fails_iff_fuel_nonpositive 0%nat ∅ (1 # 2)). by vm_compute.
Defined.

Lemma is_goal_iff_all_dropped_witness :
  is_goal line_problem
    {| current_location := 20%nat; dropped_so_far := {[5%nat; 10%nat; 20%nat]}; fuel := 1 |}
  = true.
Proof.
  apply (is_goal_iff_all_dropped line_problem
           {| current_location := 20%nat;
              dropped_so_far := {[5%nat; 10%nat; 20%nat]}; fuel := 1 |}).
  by vm_compute.
Defined.

Lemma expand_never_negative_fuel_witness :
  Forall (fun sc : @RelaxedDeliveriesState nat _ _ * Q =>
            (0 <= fuel sc.1)%Q /\ current_location sc.1 <> 20%nat)
         (yielded (expand_state_with_costs line_distance line_problem
                     (initial_state line_problem))).
Proof.
  apply Forall_forall. intros [s' c] Hin. simpl.
  destruct (expand_never_negative_fuel line_distance line_problem
              (initial_state line_problem)) as [Hskip Hfuel].
  split.
  - by apply (Hfuel s' c).
  - apply (Hskip 20%nat) with (c := c); [by vm_compute | done].
Defined.

(** The end-to-end example of the design: on the points 0, 10 and 20 the
    spanning tree weighs 20 (0-10-20), and on 10 and 20 it weighs 10. *)
Example mst_weight_three_points :
  (_calculate_junctions_air_dist_mst_weight line_distance {[0%nat; 10%nat; 20%nat]} ∅).1
  = 20%Q.
Proof. by vm_compute. Qed.

Example mst_weight_two_points :
  (_calculate_junctions_air_dist_mst_weight line_distance {[10%nat; 20%nat]} ∅).1
  = 10%Q.
Proof. by vm_compute. Qed.

Example max_air_dist_line :
  MaxAirDistHeuristic_estimate line_distance line_problem (initial_state line_problem)
  = 20%Q.
Proof. by vm_compute. Qed.

End LineHeuristics.

(** * Further properties of the code *)

(** ** States as dictionary keys *)

Section StateKeys.

Context {Junction : Type} `{!EqDecision Junction, !Countable Junction}.
Variable float_mul : Q -> Q -> option Q.

Local Abbreviation State := (@RelaxedDeliveriesState Junction _ _).

(** X1. [__eq__] is symmetric and transitive, and it is reflexive on the
    states whose bucket can be computed: [s == s] is true exactly when
    [fuel_as_int] of [s] returns, and raises the error of [fuel_as_int]
    otherwise. *)
Theorem state_eq_equivalence :
  (forall s : State,
      RelaxedDeliveriesState__eq__ float_mul s s = Ok true <->
      exists b, fuel_as_int float_mul s = Ok b) /\
  (forall (s : State) e,
      RelaxedDeliveriesState__eq__ float_mul s s = Raised e <->
      fuel_as_int float_mul s = Raised e) /\
  (forall s1 s2 : State,
      RelaxedDeliveriesState__eq__ float_mul s1 s2 = Ok true ->
      RelaxedDeliveriesState__eq__ float_mul s2 s1 = Ok true) /\
  (forall s1 s2 s3 : State,
      RelaxedDeliveriesState__eq__ float_mul s1 s2 = Ok true ->
      RelaxedDeliveriesState__eq__ float_mul s2 s3 = Ok true ->
      RelaxedDeliveriesState__eq__ float_mul s1 s3 = Ok true).
Proof.
  split; [|split; [|split]].
  - intros s. rewrite eq_true_iff. split.
    + intros (_ & _ & b & Hb & _). by exists b.
    + intros [b Hb]. split; [done|]. split; [done|]. by exists b.
  - intros s e. unfold RelaxedDeliveriesState__eq__.
    destruct (fuel_as_int float_mul s) as [b|e']; [|split; intros E; inversion E; done].
    split; discriminate.
  - intros s1 s2 E. apply eq_true_iff in E as (El & Ed & b & E1 & E2).
    apply eq_true_iff. split; [done|]. split; [done|]. by exists b.
  - intros s1 s2 s3 E12 E23.
    apply eq_true_iff in E12 as (El & Ed & b & E1 & E2).
    apply eq_true_iff in E23 as (El' & Ed' & b' & E2' & E3).
    apply eq_true_iff. split; [congruence|]. split; [congruence|].
    exists b. split; [done|]. congruence.
Qed.

(** X2. Hashing agrees with equality: two states that compare equal have
    the same hash, whatever their raw fuel values. *)
Theorem equal_states_hash_equal (hash : Junction * gset Junction * Z -> Z)
    (s1 s2 : State) :
  RelaxedDeliveriesState__eq__ float_mul s1 s2 = Ok true ->
  exists h, RelaxedDeliveriesState__hash__ hash float_mul s1 = Ok h /\
            RelaxedDeliveriesState__hash__ hash float_mul s2 = Ok h.
Proof.
  intros E. apply eq_true_iff in E as (El & Ed & b & E1 & E2).
  unfold RelaxedDeliveriesState__hash__. rewrite E1, E2, El, Ed. by eexists.
Qed.

End StateKeys.

(** ** The relaxed problem and its state space *)

Section ProblemFacts.

Context {Junction : Type} `{!EqDecision Junction, !Countable Junction}.
Variable calc_air_distance_from : Junction -> Junction -> Q.

Local Abbreviation State := (@RelaxedDeliveriesState Junction _ _).
Local Abbreviation Problem := (@RelaxedDeliveriesProblem Junction _ _).
Local Abbreviation Input := (@DeliveriesProblemInput Junction _ _).
Local Abbreviation expand := (expand_state_with_costs calc_air_distance_from).
Local Abbreviation loop := (expand_loop calc_air_distance_from).
Local Abbreviation dist := calc_air_distance_from.

(** X6. Building a relaxed problem fails, with the assertion error, exactly
    when the start point is one of the drop points or the initial fuel is
    not positive; otherwise the problem holds the sets of the input, their
    union as stop points, and the initial state at the start point with
    nothing dropped and the initial fuel. *)
Theorem problem_init_outcome (input : Input) :
  (RelaxedDeliveriesProblem__init__ input = Raised AssertionError <->
     input_start_point input ∈ input_drop_points input \/
     (input_gas_tank_init_fuel input <= 0)%Q) /\
  (forall p, RelaxedDeliveriesProblem__init__ input = Ok p ->
     start_point p = input_start_point input /\
     drop_points p = input_drop_points input /\
     gas_stations p = input_gas_stations input /\
     gas_tank_capacity p = input_gas_tank_capacity input /\
     possible_stop_points p = input_drop_points input ∪ input_gas_stations input /\
     initial_state p = {| current_location := input_start_point input;
                          dropped_so_far := ∅;
                          fuel := input_gas_tank_init_fuel input |}).
Proof.
  split.
  - unfold RelaxedDeliveriesProblem__init__, RelaxedDeliveriesState__init__.
    destruct (decide (input_start_point input ∉ input_drop_points input)) as [Hn|Hy].
    + destruct (Qlt_le_dec 0 (input_gas_tank_init_fuel input)) as [Hpos|Hneg].
      * split; [discriminate|]. intros [Hin|Hle]; [done | lra].
      * split; auto.
    + split; [|done]. intros _. left.
      by destruct (decide (input_start_point input ∈ input_drop_points input)).
  - intros p Hp. apply problem_init_Ok_inv in Hp. tauto.
Qed.

(** X7. The initial state of a constructed problem is a goal exactly when
    the problem has no drop point. *)
Theorem initial_state_goal_iff (input : Input) (p : Problem) :
  RelaxedDeliveriesProblem__init__ input = Ok p ->
  (is_goal p (initial_state p) = true <-> drop_points p = ∅).
Proof.
  intros Hp. apply problem_init_Ok_inv in Hp as (_ & _ & _ & _ & _ & _ & _ & Hi).
  unfold is_goal. rewrite bool_decide_eq_true, Hi. simpl. split; congruence.
Qed.

(** X8. Every successor yielded by an expansion is sound: it sits at a stop
    point other than the current location and not yet dropped, its edge cost
    is the air distance to that point and is within the fuel of the expanded
    state, its fuel is positive, and its dropped set and fuel are those of a
    delivery (at a drop point) or of a refuel (elsewhere). *)
Theorem expand_successors_sound (p : Problem) (s s' : State) (c : Q) :
  (s', c) ∈ yielded (expand p s) ->
  current_location s' ∈ possible_stop_points p /\
  current_location s' <> current_location s /\
  (current_location s' ∉ dropped_so_far s) /\
  c = dist (current_location s) (current_location s') /\
  (c <= fuel s)%Q /\ (0 < fuel s')%Q /\
  (current_location s' ∈ drop_points p ->
     dropped_so_far s' = dropped_so_far s ∪ {[current_location s']} /\
     fuel s' = (fuel s - c)%Q) /\
  (current_location s' ∉ drop_points p ->
     dropped_so_far s' = dropped_so_far s /\ fuel s' = gas_tank_capacity p).
Proof.
  intros Hin. apply yielded_expand_sound in Hin as (q & Hq & Hs).
  destruct Hs as (H1 & H2 & H3 & H4 & H5 & H6 & H7 & H8). subst q.
  repeat split; auto; try lra; try (by apply H7); by apply H8.
Qed.

Lemma loop_locations_sublist (p : Problem) (s : State) (qs : list Junction) :
  map (fun sc : State * Q => current_location sc.1) (yielded (loop p s qs)) `sublist_of` qs.
Proof.
  induction qs as [|q qs IH]; cbn [expand_loop yielded map]; [done|].
  destruct (decide (q = current_location s)); [by apply sublist_cons|].
  destruct (decide (q ∈ dropped_so_far s)); [by apply sublist_cons|].
  destruct (Qlt_le_dec (fuel s - dist (current_location s) q) 0); [by apply sublist_cons|].
  destruct (decide (q ∈ drop_points p)); unfold RelaxedDeliveriesState__init__;
    match goal with |- context [Qlt_le_dec ?a ?b] => destruct (Qlt_le_dec a b) end;
    cbn [yielded map fst current_location];
    first [by apply sublist_skip | apply sublist_nil_l].
Qed.

(** X9. An expansion yields at most one successor per stop point: the
    locations of the yielded successors are pairwise distinct, and there are
    no more successors than stop points. *)
Theorem expand_successors_distinct (p : Problem) (s : State) :
  NoDup (map (fun sc : State * Q => current_location sc.1) (yielded (expand p s))) /\
  length (yielded (expand p s)) <= size (possible_stop_points p).
Proof.
  pose proof (loop_locations_sublist p s (elements (possible_stop_points p))) as Hsub.
  split.
  - apply (sublist_NoDup _ _ (NoDup_elements (possible_stop_points p)) Hsub).
  - apply sublist_length in Hsub. rewrite length_map in Hsub. exact Hsub.
Qed.

(** X10. Invariants of the state space of a constructed problem: in every
    reachable state the dropped points are drop points of the problem, the
    fuel is positive, the location is the start point or a stop point, and a
    location that is a drop point has been dropped. *)
Theorem reachable_invariants (input : Input) (p : Problem) (s : State) :
  RelaxedDeliveriesProblem__init__ input = Ok p ->
  reachable dist p s ->
  dropped_so_far s ⊆ drop_points p /\
  (0 < fuel s)%Q /\
  (current_location s = start_point p \/ current_location s ∈ possible_stop_points p) /\
  (current_location s ∈ drop_points p -> current_location s ∈ dropped_so_far s).
Proof.
  intros Hinit Hreach.
  pose proof (reachable_location_served dist input p s Hinit Hreach) as Hserved.
  apply problem_init_Ok_inv in Hinit as (_ & Hpos & Hstart & _ & _ & _ & _ & Hi).
  split; [|split; [|split]]; [| | |done].
  - clear Hserved. induction Hreach as [|s s' c Hreach IH Hin].
    + rewrite Hi. simpl. apply empty_subseteq.
    + apply yielded_expand_sound in Hin as (q & _ & Hs).
      destruct Hs as (_ & _ & _ & _ & _ & _ & Hdrop & Hgas).
      destruct (decide (q ∈ drop_points p)) as [Hq|Hq].
      * destruct (Hdrop Hq) as [-> _]. apply union_subseteq. split; [done|].
        by apply singleton_subseteq_l.
      * by destruct (Hgas Hq) as [-> _].
  - clear Hserved. destruct Hreach as [|s s' c Hreach Hin].
    + by rewrite Hi.
    + apply yielded_expand_sound in Hin as (q & _ & Hs).
      by destruct Hs as (_ & _ & _ & _ & _ & Hfuel & _).
  - clear Hserved. destruct Hreach as [|s s' c Hreach Hin].
    + left. by rewrite Hi, Hstart.
    + right. apply yielded_expand_sound in Hin as (q & Hq & Hs).
      destruct Hs as (_ & _ & _ & _ & <- & _). done.
Qed.

(** X11. Goal states are closed under expansion: every successor of a goal
    state is again a goal state, reached by a refuel at a point that is not
    a drop point, with a full tank. *)
Theorem goal_successors_are_goals (p : Problem) (s s' : State) (c : Q) :
  is_goal p s = true ->
  (s', c) ∈ yielded (expand p s) ->
  is_goal p s' = true /\ (current_location s' ∉ drop_points p) /\
  fuel s' = gas_tank_capacity p.
Proof.
  unfold is_goal. rewrite !bool_decide_eq_true. intros Hgoal Hin.
  apply yielded_expand_sound in Hin as (q & _ & Hs).
  destruct Hs as (_ & Hnot & _ & _ & Hloc & _ & _ & Hgas).
  rewrite Hgoal in Hnot. rewrite Hloc.
  destruct (Hgas Hnot) as [Hd Hf]. split; [congruence|]. split; done.
Qed.

(** X12. An expansion runs to its end, without the assertion error of the
    state constructor, exactly when no affordable candidate that is a drop
    point lies at exactly the fuel of the state and the tank capacity is
    positive whenever an affordable candidate is not a drop point. *)
Theorem expand_runs_to_end_iff (p : Problem) (s : State) :
  escaped (expand p s) = None <->
  (forall q, q ∈ possible_stop_points p ->
     q <> current_location s -> q ∉ dropped_so_far s ->
     (dist (current_location s) q <= fuel s)%Q ->
     (q ∈ drop_points p -> (dist (current_location s) q < fuel s)%Q) /\
     (q ∉ drop_points p -> (0 < gas_tank_capacity p)%Q)).
Proof. apply expand_completes_iff. Qed.

(** X13. With a non-negative distance, fuel never exceeds what the vehicle
    started with or what the tank holds: in every reachable state the fuel
    is at most the initial fuel or at most the tank capacity. *)
Theorem reachable_fuel_bounded (input : Input) (p : Problem) (s : State) :
  (forall a b, (0 <= dist a b)%Q) ->
  RelaxedDeliveriesProblem__init__ input = Ok p ->
  reachable dist p s ->
  (fuel s <= input_gas_tank_init_fuel input)%Q \/ (fuel s <= gas_tank_capacity p)%Q.
Proof.
  intros Hnn Hinit Hreach.
  apply problem_init_Ok_inv in Hinit as (_ & _ & _ & _ & _ & _ & _ & Hi).
  induction Hreach as [|s s' c Hreach IH Hin].
  - left. rewrite Hi. simpl. lra.
  - apply yielded_expand_sound in Hin as (q & _ & Hs).
    destruct Hs as (_ & _ & Hc & _ & _ & _ & Hdrop & Hgas).
    destruct (decide (q ∈ drop_points p)) as [Hq|Hq].
    + destruct (Hdrop Hq) as [_ ->]. specialize (Hnn (current_location s) q).
      subst c. destruct IH; [left | right]; lra.
    + destruct (Hgas Hq) as [_ ->]. right. lra.
Qed.

Lemma loop_stop_iff (p : Problem) (s : State) (qs : list Junction) :
  loop p s qs = StopIteration <->
  (forall q, q ∈ qs ->
     q = current_location s \/ q ∈ dropped_so_far s \/
     (fuel s < dist (current_location s) q)%Q).
Proof.
  induction qs as [|q0 qs IH]; cbn [expand_loop].
  - split; [|done]. intros _ x Hx. inversion Hx.
  - assert (Hskip :
      q0 = current_location s \/ q0 ∈ dropped_so_far s \/
        (fuel s < dist (current_location s) q0)%Q ->
      loop p s qs = StopIteration <->
      (forall x, x ∈ q0 :: qs ->
         x = current_location s \/ x ∈ dropped_so_far s \/
         (fuel s < dist (current_location s) x)%Q)).
    { intros Hwhy. rewrite IH. split.
      - intros Hall x Hx. apply elem_of_cons in Hx as [->|Hx]; auto.
      - intros Hall x Hx. apply Hall. by right. }
    destruct (decide (q0 = current_location s)); [apply Hskip; auto|].
    destruct (decide (q0 ∈ dropped_so_far s)); [apply Hskip; auto|].
    destruct (Qlt_le_dec (fuel s - dist (current_location s) q0) 0) as [Hlt|Hge];
      [apply Hskip; right; right; lra|].
    assert (Hno : ~ (forall x, x ∈ q0 :: qs ->
                      x = current_location s \/ x ∈ dropped_so_far s \/
                      (fuel s < dist (current_location s) x)%Q)).
    { intros Hall. destruct (Hall q0) as [?|[?|?]]; [by left|done|done|lra]. }
    destruct (decide (q0 ∈ drop_points p)); unfold RelaxedDeliveriesState__init__;
      match goal with |- context [Qlt_le_dec ?a ?b] => destruct (Qlt_le_dec a b) end;
      split; try discriminate; intros Hall; by destruct Hno.
Qed.

(** X14. An expansion yields nothing and ends normally exactly when every
    stop point is the current location, already dropped, or farther away
    than the fuel allows. *)
Theorem expand_dead_end_iff (p : Problem) (s : State) :
  expand_state_with_costs dist p s = StopIteration <->
  (forall q, q ∈ possible_stop_points p ->
     q = current_location s \/ q ∈ dropped_so_far s \/
     (fuel s < dist (current_location s) q)%Q).
Proof.
  unfold expand_state_with_costs. rewrite loop_stop_iff.
  split; intros Hall q Hq; apply Hall; by apply elem_of_elements.
Qed.

End ProblemFacts.

(** ** The heuristics *)

Lemma max_fold_ge {A} (f : A -> Q) (l : list A) (acc : Q) :
  let result :=
    foldl (fun max_air_dist drop_point =>
             let air_dist := f drop_point in
             if Qlt_le_dec max_air_dist air_dist then air_dist else max_air_dist)
          acc l in
  (acc <= result)%Q /\
  (forall q, q ∈ l -> (f q <= result)%Q) /\
  (result = acc \/ exists q, q ∈ l /\ result = f q).
Proof.
  revert acc. induction l as [|x l IH]; intros acc; cbn [foldl].
  - cbv zeta. split; [lra|]. split; [|by left]. intros q Hq. inversion Hq.
  - cbv zeta in *.
    destruct (Qlt_le_dec acc (f x)) as [Hlt|Hge].
    + destruct (IH (f x)) as (H1 & H2 & H3). split; [lra|]. split.
      * intros q Hq. apply elem_of_cons in Hq as [->|Hq]; [done | by apply H2].
      * right. destruct H3 as [->|(q & Hq & ->)].
        -- exists x. split; [by left | done].
        -- exists q. split; [by right | done].
    + destruct (IH acc) as (H1 & H2 & H3). split; [done|]. split.
      * intros q Hq. apply elem_of_cons in Hq as [->|Hq]; [lra | by apply H2].
      * destruct H3 as [->|(q & Hq & ->)]; [by left|].
        right. exists q. split; [by right | done].
Qed.

Section HeuristicFacts.

Context {Junction : Type} `{!EqDecision Junction, !Countable Junction}.
Variable calc_air_distance_from : Junction -> Junction -> Q.

Local Abbreviation State := (@RelaxedDeliveriesState Junction _ _).
Local Abbreviation Problem := (@RelaxedDeliveriesProblem Junction _ _).
Local Abbreviation dist := calc_air_distance_from.
Local Abbreviation get_distance := (_get_distance_between_junctions calc_air_distance_from).

(** X15. [MaxAirDistHeuristic.estimate] is the maximum it is named after:
    it is never negative, it is at least the air distance from every drop
    point still to be served to the current location, and it is either 0 or
    exactly one of these distances. *)
Theorem max_air_dist_is_maximum (p : Problem) (s : State) :
  (0 <= MaxAirDistHeuristic_estimate dist p s)%Q /\
  (forall q, q ∈ drop_points p ∖ dropped_so_far s ->
     (dist q (current_location s) <= MaxAirDistHeuristic_estimate dist p s)%Q) /\
  (MaxAirDistHeuristic_estimate dist p s = 0%Q \/
   exists q, q ∈ drop_points p ∖ dropped_so_far s /\
             MaxAirDistHeuristic_estimate dist p s = dist q (current_location s)).
Proof.
  unfold MaxAirDistHeuristic_estimate.
  destruct (max_fold_ge (fun q => dist q (current_location s))
              (elements (drop_points p ∖ dropped_so_far s)) 0%Q) as (H1 & H2 & H3).
  cbv zeta in *. split; [done|]. split.
  - intros q Hq. apply H2. by apply elem_of_elements.
  - destruct H3 as [?|(q & Hq & ?)]; [by left|].
    right. exists q. split; [by apply elem_of_elements | done].
Qed.

(** X16. At a goal state both distance heuristics are exactly 0, and the
    MSTAirDist estimate leaves the cache as it was. *)
Theorem estimates_zero_at_goal (p : Problem) (s : State) (cache : gmap (gset Junction) Q) :
  is_goal p s = true ->
  MaxAirDistHeuristic_estimate dist p s = 0%Q /\
  MSTAirDistHeuristic_estimate dist p s cache = (0%Q, cache).
Proof.
  unfold is_goal. rewrite bool_decide_eq_true. intros Hgoal.
  unfold MaxAirDistHeuristic_estimate, MSTAirDistHeuristic_estimate,
    _calculate_junctions_air_dist_mst_weight.
  rewrite Hgoal, difference_diag_L, elements_empty, (left_id_L ∅ (∪)), elements_singleton.
  split; [done|]. destruct cache; reflexivity.
Qed.

Lemma get_distance_dom (a b : Junction) (cache : gmap (gset Junction) Q) :
  dom (get_distance a b cache).2 = {[ ({[a; b]} : gset Junction) ]} ∪ dom cache.
Proof.
  unfold _get_distance_between_junctions.
  destruct (cache !! ({[a; b]} : gset Junction)) as [v|] eqn:E; simpl.
  - apply set_eq. intros k. rewrite elem_of_union, elem_of_singleton.
    split; [by right|]. intros [->|?]; [|done]. apply elem_of_dom. eauto.
  - apply dom_insert_L.
Qed.

(** X17. A call of [_get_distance_between_junctions] stores what it returns:
    afterwards the pair is cached with the returned distance, the keys are
    the old keys and that pair, every older entry is kept, and calling again
    with the junctions in either order returns the same distance and leaves
    the cache unchanged. *)
Theorem get_distance_stores_result (a b : Junction) (cache : gmap (gset Junction) Q) :
  let r := _get_distance_between_junctions dist a b cache in
  r.2 !! ({[a; b]} : gset Junction) = Some r.1 /\
  dom r.2 = {[ ({[a; b]} : gset Junction) ]} ∪ dom cache /\
  cache ⊆ r.2 /\
  _get_distance_between_junctions dist a b r.2 = r /\
  _get_distance_between_junctions dist b a r.2 = r.
Proof.
  cbv zeta. destruct (get_distance_cached dist a b cache) as [Hhere Hsub].
  split; [done|]. split; [apply get_distance_dom|]. split; [done|].
  assert (Hagain : forall x y, ({[x; y]} : gset Junction) = {[a; b]} ->
              get_distance x y (get_distance a b cache).2 = get_distance a b cache).
  { intros x y Exy. unfold _get_distance_between_junctions at 1.
    rewrite Exy, Hhere. by destruct (get_distance a b cache). }
  split; apply Hagain; [done | apply pair_key_comm].
Qed.

(** X18. Memoisation does not change what is measured: with a symmetric air
    distance and a cache that holds only computed distances, a call returns
    the air distance of the two junctions, and the cache still holds only
    computed distances. *)
Theorem cached_distance_is_air_distance (a b : Junction)
    (cache : gmap (gset Junction) Q) :
  (forall x y, (dist x y == dist y x)%Q) ->
  cache_computed dist cache ->
  ((get_distance a b cache).1 == dist a b)%Q /\
  cache_computed dist (get_distance a b cache).2.
Proof. intros Hsym Hc. by apply get_distance_computed. Qed.

(** X19. The matrix handed to the spanning-tree routine: for a symmetric
    air distance and a cache of computed distances it has exactly one cell
    for each pair of indices of the junction list, zero on the diagonal and
    the air distance of the two junctions elsewhere. *)
Theorem distances_matrix_cells (js : list Junction) (cache : gmap (gset Junction) Q) :
  (forall x y, (dist x y == dist y x)%Q) ->
  cache_computed dist cache ->
  let m := (fill_distances_matrix dist js cache).2 in
  (forall i j, is_Some (matrix_get m i j) <-> i < length js /\ j < length js) /\
  (forall i, i < length js -> exists v, matrix_get m i i = Some v /\ (v == 0)%Q) /\
  (forall i j ji jj, i <> j -> js !! i = Some ji -> js !! j = Some jj ->
     exists v, matrix_get m i j = Some v /\ (v == dist ji jj)%Q).
Proof.
  intros Hsym Hc m.
  destruct (fill_distances_matrix_spec dist Hsym js cache Hc) as (_ & Hshape & Hfill).
  fold m in Hshape, Hfill. split; [done|]. split.
  - intros i Hi. destruct (Hfill i i Hi Hi) as (v & Hget & Hv).
    exists v. split; [done|]. unfold index_distance in Hv.
    by rewrite decide_True in Hv.
  - intros i j ji jj Hne Hi Hj.
    destruct (Hfill i j) as (v & Hget & Hv); [by eapply lookup_lt_Some..|].
    exists v. split; [done|]. unfold index_distance in Hv.
    rewrite decide_False in Hv by done. by rewrite Hi, Hj in Hv.
Qed.


Lemma fill_entry_extends (js : list Junction) (i j : nat)
    (st : gmap (gset Junction) Q * list (list Q)) :
  st.1 ⊆ (fill_entry dist js i j st).1 /\
  (forall k, k ∈ dom (fill_entry dist js i j st).1 ->
     k ∈ dom st.1 \/ exists a b, a ∈ js /\ b ∈ js /\ k = {[a; b]}).
Proof.
  unfold fill_entry. destruct (decide (i = j)); [split; [done | auto]|].
  destruct (js !! i) as [a|] eqn:Ea; [|split; [done | auto]].
  destruct (js !! j) as [b|] eqn:Eb; [|split; [done | auto]].
  destruct (get_distance_cached dist a b st.1) as [_ Hsub].
  pose proof (get_distance_dom a b st.1) as Hdom.
  destruct (get_distance a b st.1) as [d c']. simpl in *. split; [done|].
  intros k Hk. rewrite Hdom in Hk.
  apply elem_of_union in Hk as [Hk|Hk]; [|by left].
  apply elem_of_singleton in Hk. right. exists a, b.
  split; [by eapply list_elem_of_lookup_2|]. split; [by eapply list_elem_of_lookup_2 | done].
Qed.

(** X21. An MSTAirDist estimate only adds to the cache: every entry cached
    before is still cached with the same distance, and every new key is the
    pair of two junctions among the current location and the drop points
    still to be served. *)
Theorem mst_estimate_extends_cache (p : Problem) (s : State)
    (cache : gmap (gset Junction) Q) :
  let cache' := (MSTAirDistHeuristic_estimate dist p s cache).2 in
  cache ⊆ cache' /\
  (forall k, k ∈ dom cache' ->
     k ∈ dom cache \/
     exists a b,
       a ∈ drop_points p ∖ dropped_so_far s ∪ {[current_location s]} /\
       b ∈ drop_points p ∖ dropped_so_far s ∪ {[current_location s]} /\
       k = {[a; b]}).
Proof.
  cbv zeta. unfold MSTAirDistHeuristic_estimate, _calculate_junctions_air_dist_mst_weight.
  set (remained := drop_points p ∖ dropped_so_far s ∪ {[current_location s]}).
  set (js := elements remained).
  set (Inv := fun (_ : nat) (st : gmap (gset Junction) Q * list (list Q)) =>
                cache ⊆ st.1 /\
                (forall k, k ∈ dom st.1 ->
                   k ∈ dom cache \/ exists a b, a ∈ js /\ b ∈ js /\ k = {[a; b]})).
  assert (Hend : Inv (length js) (fill_distances_matrix dist js cache)).
  { unfold fill_distances_matrix.
    apply (foldl_seq_invariant Inv); [split; [done | auto]|].
    intros i st _ Hst. unfold fill_row.
    apply (foldl_seq_invariant (fun _ => Inv i)); [done|].
    intros j st' _ [Hsub Hkeys].
    destruct (fill_entry_extends js i j st') as [Hsub' Hkeys'].
    split; [by etrans|].
    intros k Hk. destruct (Hkeys' k Hk) as [Hold|Hnew]; auto. }
  destruct Hend as [Hsub Hkeys].
  destruct (fill_distances_matrix dist js cache) as [c' m]. simpl in *.
  split; [done|]. intros k Hk. destruct (Hkeys k Hk) as [?|(a & b & Ha & Hb & ->)]; [by left|].
  right. exists a, b. split; [by apply elem_of_elements|].
  split; [by apply elem_of_elements | done].
Qed.

End HeuristicFacts.

Section RelaxedHeuristicFacts.

Context {Junction : Type} `{!EqDecision Junction, !Countable Junction}.
Variable AStar_solve_problem :
  heuristic_class -> @RelaxedDeliveriesProblem Junction _ _ -> result SearchResult.

(** X22. When [RelaxedDeliveriesHeuristic.estimate] raises.  The relaxed
    sub-problem cannot be built exactly when the current location of the
    strict state is a drop point still to be served or its fuel is not
    positive, and the estimate then raises the assertion error without
    calling the solver.  Once the sub-problem is built, the estimate raises
    exactly when the solver does, and raises the exception of the solver. *)
Theorem relaxed_estimate_raises_exactly_when
    (problem : @StrictDeliveriesProblem Junction _ _)
    (state : @StrictDeliveriesState Junction _ _) :
  (RelaxedDeliveriesProblem__init__ (sub_problem_input problem state) =
     Raised AssertionError <->
   strict_current_location state ∈
     strict_drop_points problem ∖ strict_dropped_so_far state \/
   (strict_fuel state <= 0)%Q) /\
  (RelaxedDeliveriesProblem__init__ (sub_problem_input problem state) =
     Raised AssertionError ->
   RelaxedDeliveriesHeuristic_estimate AStar_solve_problem problem state =
     Raised AssertionError) /\
  (forall sub_problem,
     RelaxedDeliveriesProblem__init__ (sub_problem_input problem state) = Ok sub_problem ->
     forall e,
       RelaxedDeliveriesHeuristic_estimate AStar_solve_problem problem state = Raised e <->
       AStar_solve_problem MSTAirDistHeuristic sub_problem = Raised e).
Proof. apply relaxed_estimate_raises_iff. Qed.

End RelaxedHeuristicFacts.

(** ** Printing *)

Lemma str_int_inj (a b : Z) : str_int a = str_int b -> a = b.
Proof.
  unfold str_int. intros E.
  assert (Hnn : forall z, Z.to_int z <> Decimal.Pos Decimal.Nil /\
                          Z.to_int z <> Decimal.Neg Decimal.Nil).
  { intros [|q|q]; simpl; split; try discriminate;
      intros Hq; inversion Hq as [Hq']; by apply Unsigned.to_uint_nonnil in Hq'. }
  apply to_int_inj.
  assert (Some (Z.to_int a) = Some (Z.to_int b)) as Hs; [|by inversion Hs].
  rewrite <- (NilZero.isi (Z.to_int a)), <- (NilZero.isi (Z.to_int b));
    try apply Hnn. by rewrite E.
Qed.

Section PrintingFacts.

Context {Junction : Type} `{!EqDecision Junction, !Countable Junction}.
Variable index : Junction -> Z.

Local Abbreviation State := (@RelaxedDeliveriesState Junction _ _).
Local Abbreviation Problem := (@RelaxedDeliveriesProblem Junction _ _).

(** X23. [__str__] shows the index of the location and nothing else: two
    states print the same exactly when their locations have the same index. *)
Theorem state_str_identifies_index (s1 s2 : State) :
  RelaxedDeliveriesState__str__ index s1 = RelaxedDeliveriesState__str__ index s2 <->
  index (current_location s1) = index (current_location s2).
Proof.
  unfold RelaxedDeliveriesState__str__. split; [apply str_int_inj | by intros ->].
Qed.

(** X24. [solution_additional_str] ignores every state that is not at a gas
    station: a path that visits no gas station, the empty path included,
    gives exactly "gas-stations: []", and states away from gas stations can
    be removed from a path without changing the text. *)
Theorem solution_additional_str_only_gas_stations (p : Problem) (path : list State) :
  (Forall (fun state => current_location state ∉ gas_stations p) path ->
     solution_additional_str index p path = "gas-stations: []") /\
  solution_additional_str index p
    (filter (fun state => current_location state ∈ gas_stations p) path) =
  solution_additional_str index p path.
Proof.
  unfold solution_additional_str. split.
  - intros Hall.
    assert (filter (fun state : State => current_location state ∈ gas_stations p) path = [])
      as ->; [|done].
    induction Hall as [|x l Hx Hall IH]; [done|].
    rewrite filter_cons, decide_False by done. exact IH.
  - by rewrite list_filter_filter_l.
Qed.

End PrintingFacts.

(** ** The estimate does not depend on what is cached *)

Lemma Forall2_concat_lists {A B} (R : A -> B -> Prop) (l1 : list (list A)) (l2 : list (list B)) :
  Forall2 (Forall2 R) l1 l2 -> Forall2 R (concat l1) (concat l2).
Proof.
  induction 1 as [|x y l1 l2 Hxy Hl IH]; simpl; [constructor|].
  by apply Forall2_app.
Qed.

Lemma row_entries_equiv (h : nat -> nat) (a : nat) (r1 r2 : list Q) :
  Forall2 Qeq r1 r2 ->
  Forall2 entry_equiv (imap (fun j w => (a, h j, w)) r1) (imap (fun j w => (a, h j, w)) r2).
Proof.
  intros Hr. revert h. induction Hr as [|x y r1 r2 Hxy Hr IH]; intros h; [constructor|].
  rewrite !imap_cons. constructor; [by split|]. apply (IH (h ∘ S)).
Qed.

Lemma entries_equiv (m1 m2 : list (list Q)) :
  Forall2 (Forall2 Qeq) m1 m2 -> Forall2 entry_equiv (entries m1) (entries m2).
Proof.
  intros Hm. unfold entries. apply Forall2_concat_lists.
  assert (Hgen : forall h : nat -> nat,
    Forall2 (Forall2 entry_equiv)
      (imap (fun i row => imap (fun j w => (h i, j, w)) row) m1)
      (imap (fun i row => imap (fun j w => (h i, j, w)) row) m2)).
  { induction Hm as [|r1 r2 m1 m2 Hr Hm IH]; intros h; [constructor|].
    rewrite !imap_cons. constructor.
    - apply (row_entries_equiv (fun j => j) (h 0) r1 r2 Hr).
    - apply (IH (h ∘ S)). }
  apply (Hgen (fun i => i)).
Qed.

Lemma nonzero_entries_equiv (m1 m2 : list (list Q)) :
  Forall2 (Forall2 Qeq) m1 m2 ->
  Forall2 entry_equiv (nonzero_entries m1) (nonzero_entries m2).
Proof.
  intros Hm. unfold nonzero_entries. apply Forall2_filter; [|by apply entries_equiv].
  intros [[i j] w] [[i' j'] w'] [_ Hw]. simpl in *. by rewrite Hw.
Qed.

Lemma insert_by_weight_equiv (e e' : entry) (l l' : list entry) :
  entry_equiv e e' -> Forall2 entry_equiv l l' ->
  Forall2 entry_equiv (insert_by_weight e l) (insert_by_weight e' l').
Proof.
  intros He Hl. induction Hl as [|x y l l' Hxy Hl IH]; cbn [insert_by_weight].
  - constructor; [done | constructor].
  - assert (Hb : Qle_bool e.2 x.2 = Qle_bool e'.2 y.2).
    { destruct He as [_ He2], Hxy as [_ Hx2]. apply Qleb_comp; done. }
    rewrite Hb. destruct (Qle_bool e'.2 y.2).
    + constructor; [done|]. by constructor.
    + by constructor.
Qed.

Lemma sort_by_weight_equiv (l l' : list entry) :
  Forall2 entry_equiv l l' ->
  Forall2 entry_equiv (sort_by_weight l) (sort_by_weight l').
Proof.
  unfold sort_by_weight. induction 1; cbn [foldr]; [constructor|].
  by apply insert_by_weight_equiv.
Qed.

Lemma kruskal_equiv (l l' : list entry) (label : nat -> nat) :
  Forall2 entry_equiv l l' ->
  Forall2 entry_equiv (kruskal l label) (kruskal l' label).
Proof.
  intros Hl. revert label.
  induction Hl as [|[[u v] w] [[u' v'] w'] l l' [Huv Hw] Hl IH]; intros label;
    cbn [kruskal]; [constructor|].
  simpl in Huv, Hw. inversion Huv; subst u' v'.
  destruct (Nat.eqb (label u) (label v)); [apply IH|].
  constructor; [by split | apply IH].
Qed.

Lemma entries_sum_equiv (l l' : list entry) :
  Forall2 entry_equiv l l' -> (entries_sum l == entries_sum l')%Q.
Proof.
  induction 1 as [|x y l l' [_ Hxy] Hl IH]; [reflexivity|].
  rewrite !entries_sum_cons, Hxy, IH. reflexivity.
Qed.

Section CacheIndependence.

Context {Junction : Type} `{!EqDecision Junction, !Countable Junction}.
Variable calc_air_distance_from : Junction -> Junction -> Q.
Hypothesis calc_sym : forall a b, (calc_air_distance_from a b == calc_air_distance_from b a)%Q.

Local Abbreviation State := (@RelaxedDeliveriesState Junction _ _).
Local Abbreviation Problem := (@RelaxedDeliveriesProblem Junction _ _).
Local Abbreviation dist := calc_air_distance_from.

Lemma matrix_set_shape (n : nat) (m : list (list Q)) (i j : nat) (v : Q) :
  length m = n /\ Forall (fun row => length row = n) m ->
  length (matrix_set m i j v) = n /\
  Forall (fun row => length row = n) (matrix_set m i j v).
Proof.
  intros [Hlen Hrows]. unfold matrix_set. split; [by rewrite length_alter|].
  apply Forall_alter; [done|]. intros row _ Hrow. by rewrite length_insert.
Qed.

Lemma fill_distances_matrix_shape (js : list Junction) (cache : gmap (gset Junction) Q) :
  let m := (fill_distances_matrix dist js cache).2 in
  length m = length js /\ Forall (fun row => length row = length js) m.
Proof.
  cbv zeta. unfold fill_distances_matrix.
  set (Shape := fun (_ : nat) (st : gmap (gset Junction) Q * list (list Q)) =>
                  length st.2 = length js /\
                  Forall (fun row => length row = length js) st.2).
  apply (foldl_seq_invariant Shape).
  - split; simpl; unfold np_zeros; [by rewrite length_replicate|].
    apply Forall_replicate. by rewrite length_replicate.
  - intros i st _ Hst. unfold fill_row.
    apply (foldl_seq_invariant (fun _ => Shape i)); [done|].
    intros j st' _ Hst'. unfold fill_entry.
    destruct (decide (i = j)); [done|].
    destruct (js !! i); [|done]. destruct (js !! j); [|done].
    destruct (_get_distance_between_junctions dist j0 j1 st'.1) as [d c'].
    unfold Shape. simpl. by do 2 apply matrix_set_shape.
Qed.

Lemma filled_matrices_equiv (js : list Junction) (c1 c2 : gmap (gset Junction) Q) :
  cache_computed dist c1 -> cache_computed dist c2 ->
  Forall2 (Forall2 Qeq) (fill_distances_matrix dist js c1).2
                        (fill_distances_matrix dist js c2).2.
Proof.
  intros H1 H2.
  destruct (fill_distances_matrix_spec dist calc_sym js c1 H1) as (_ & _ & Hf1).
  destruct (fill_distances_matrix_spec dist calc_sym js c2 H2) as (_ & _ & Hf2).
  destruct (fill_distances_matrix_shape js c1) as [Hl1 Hr1].
  destruct (fill_distances_matrix_shape js c2) as [Hl2 Hr2].
  set (m1 := (fill_distances_matrix dist js c1).2) in *.
  set (m2 := (fill_distances_matrix dist js c2).2) in *.
  apply Forall2_same_length_lookup_2; [congruence|].
  intros i r1 r2 Hi1 Hi2.
  assert (Hi : i < length js) by (rewrite <- Hl1; by eapply lookup_lt_Some).
  pose proof (Forall_lookup_1 _ _ _ _ Hr1 Hi1) as Hlr1.
  pose proof (Forall_lookup_1 _ _ _ _ Hr2 Hi2) as Hlr2.
  apply Forall2_same_length_lookup_2; [congruence|].
  intros j x y Hx Hy.
  assert (Hj : j < length js) by (rewrite <- Hlr1; by eapply lookup_lt_Some).
  destruct (Hf1 i j Hi Hj) as (v1 & Hg1 & Hv1).
  destruct (Hf2 i j Hi Hj) as (v2 & Hg2 & Hv2).
  unfold matrix_get in Hg1, Hg2. rewrite Hi1 in Hg1. rewrite Hi2 in Hg2.
  simpl in Hg1, Hg2. assert (x = v1) as -> by congruence.
  assert (y = v2) as -> by congruence. by rewrite Hv1, Hv2.
Qed.

(** X25. The MSTAirDist estimate does not depend on what the instance has
    cached: for a symmetric air distance, two caches that hold only computed
    distances (the empty cache of a new instance among them) give estimates
    that are equal as numbers. *)
Theorem mst_estimate_cache_independent (p : Problem) (s : State)
    (c1 c2 : gmap (gset Junction) Q) :
  cache_computed dist c1 -> cache_computed dist c2 ->
  ((MSTAirDistHeuristic_estimate dist p s c1).1 ==
   (MSTAirDistHeuristic_estimate dist p s c2).1)%Q.
Proof.
  intros H1 H2.
  unfold MSTAirDistHeuristic_estimate, _calculate_junctions_air_dist_mst_weight.
  set (js := elements (drop_points p ∖ dropped_so_far s ∪ {[current_location s]})).
  pose proof (filled_matrices_equiv js c1 c2 H1 H2) as Hm.
  destruct (fill_distances_matrix dist js c1) as [c1' m1].
  destruct (fill_distances_matrix dist js c2) as [c2' m2]. simpl in *.
  apply entries_sum_equiv. unfold minimum_spanning_tree.
  by apply kruskal_equiv, sort_by_weight_equiv, nonzero_entries_equiv.
Qed.

End CacheIndependence.

(** ** The line instance: further properties *)

Section LineFacts.

Import Line.

Local Abbreviation line_problem := (problem_of line_input).
Local Abbreviation line_state := (@RelaxedDeliveriesState nat _ _).

Lemma equal_states_hash_equal_witness :
  exists h,
    RelaxedDeliveriesState__hash__ tuple_hash Double.double_mul
      {| current_location := 0%nat; dropped_so_far := ∅; fuel := 1 |} = Ok h /\
    RelaxedDeliveriesState__hash__ tuple_hash Double.double_mul
      {| current_location := 0%nat; dropped_so_far := ∅;
         fuel := 2251800939585155 # 2251799813685248 |} = Ok h.
Proof. apply equal_states_hash_equal. by vm_compute. Defined.

Lemma initial_state_goal_iff_witness :
  is_goal line_problem (initial_state line_problem) = true <->
  drop_points line_problem = ∅.
Proof. apply (initial_state_goal_iff line_input). by vm_compute. Defined.

Lemma expand_successors_sound_witness :
  (10 <= fuel (initial_state line_problem))%Q /\
  dropped_so_far {| current_location := 10%nat; dropped_so_far := {[10%nat]};
                    fuel := 2 |} =
    dropped_so_far (initial_state line_problem) ∪ {[10%nat]}.
Proof.
  destruct (expand_successors_sound line_distance line_problem
              (initial_state line_problem)
              {| current_location := 10%nat; dropped_so_far := {[10%nat]}; fuel := 2 |}
              10%Q) as (_ & _ & _ & _ & Hcost & _ & Hdrop & _).
  - vm_compute. left.
  - split; [exact Hcost|]. apply Hdrop. compute_done.
Defined.

Lemma reachable_invariants_witness :
  ({[10%nat]} : gset nat) ⊆ drop_points line_problem.
Proof.
  destruct (reachable_invariants line_distance line_input line_problem
              {| current_location := 10%nat; dropped_so_far := {[10%nat]}; fuel := 2 |})
    as (Hsub & _).
  - by vm_compute.
  - apply (reachable_successor line_distance line_problem (initial_state line_problem)
             _ 10%Q); [apply reachable_initial|]. vm_compute. left.
  - exact Hsub.
Defined.

Lemma goal_successors_are_goals_witness :
  is_goal line_problem
    {| current_location := 7%nat; dropped_so_far := {[5%nat; 10%nat; 20%nat]};
       fuel := 30 |} = true.
Proof.
  destruct (goal_successors_are_goals line_distance line_problem
              {| current_location := 20%nat; dropped_so_far := {[5%nat; 10%nat; 20%nat]};
                 fuel := 13 |}
              {| current_location := 7%nat; dropped_so_far := {[5%nat; 10%nat; 20%nat]};
                 fuel := 30 |} 13%Q) as (Hgoal & _).
  - by vm_compute.
  - vm_compute. left.
  - exact Hgoal.
Defined.

Lemma reachable_fuel_bounded_witness :
  (fuel (initial_state line_problem) <= input_gas_tank_init_fuel line_input)%Q \/
  (fuel (initial_state line_problem) <= gas_tank_capacity line_problem)%Q.
Proof.
  apply (reachable_fuel_bounded line_distance line_input line_problem).
  - apply line_distance_nonneg.
  - by vm_compute.
  - apply reachable_initial.
Defined.

Lemma estimates_zero_at_goal_witness :
  MaxAirDistHeuristic_estimate line_distance line_problem
    {| current_location := 20%nat; dropped_so_far := {[5%nat; 10%nat; 20%nat]};
       fuel := 13 |} = 0%Q.
Proof.
  apply (estimates_zero_at_goal line_distance line_problem
           {| current_location := 20%nat; dropped_so_far := {[5%nat; 10%nat; 20%nat]};
              fuel := 13 |} ∅).
  by vm_compute.
Defined.

Lemma cached_distance_is_air_distance_witness :
  ((_get_distance_between_junctions line_distance 10%nat 20%nat ∅).1 ==
   line_distance 10%nat 20%nat)%Q.
Proof.
  apply (cached_distance_is_air_distance line_distance 10%nat 20%nat ∅).
  - apply line_distance_sym.
  - apply cache_computed_empty.
Defined.

Lemma distances_matrix_cells_witness :
  exists v, matrix_get (fill_distances_matrix line_distance [0%nat; 10%nat; 20%nat] ∅).2
              0 2 = Some v /\ (v == line_distance 0%nat 20%nat)%Q.
Proof.
  destruct (distances_matrix_cells line_distance [0%nat; 10%nat; 20%nat] ∅)
    as (_ & _ & Hcell).
  - apply line_distance_sym.
  - apply cache_computed_empty.
  - apply (Hcell 0%nat 2%nat 0%nat 20%nat); [lia | reflexivity | reflexivity].
Defined.


Lemma mst_estimate_cache_independent_witness :
  ((MSTAirDistHeuristic_estimate line_distance line_problem
      (initial_state line_problem) ∅).1 ==
   (MSTAirDistHeuristic_estimate line_distance line_problem
      (initial_state line_problem)
      (_get_distance_between_junctions line_distance 20%nat 10%nat ∅).2).1)%Q.
Proof.
  apply (mst_estimate_cache_independent line_distance line_distance_sym).
  - apply cache_computed_empty.
  - apply (get_distance_computed line_distance line_distance_sym).
    apply cache_computed_empty.
Defined.

(** The sub-problem of a strict state with a drop point at exactly its fuel
    is built, and a solver that expands its initial state raises: so does
    the estimate. *)
Example relaxed_estimate_raises_with_solver :
  let problem := {| strict_drop_points := {[10%nat]}; strict_gas_stations := ∅;
                    strict_gas_tank_capacity := 30 |} in
  let state := {| strict_current_location := 0%nat; strict_dropped_so_far := ∅;
                  strict_fuel := 10 |} in
  (exists sub_problem,
      RelaxedDeliveriesProblem__init__ (sub_problem_input problem state) = Ok sub_problem) /\
  RelaxedDeliveriesHeuristic_estimate expanding_solver problem state =
    Raised AssertionError.
Proof. cbv zeta. split; [eexists|]; by vm_compute. Qed.

End LineFacts.

(** ** What an instance's cache holds *)

Section InstanceCache.

Context {Junction : Type} `{!EqDecision Junction, !Countable Junction}.
Variable calc_air_distance_from : Junction -> Junction -> Q.

Local Abbreviation State := (@RelaxedDeliveriesState Junction _ _).
Local Abbreviation Problem := (@RelaxedDeliveriesProblem Junction _ _).
Local Abbreviation dist := calc_air_distance_from.

Lemma get_distance_keeps_computed (a b : Junction) (cache : gmap (gset Junction) Q) :
  cache_computed dist cache ->
  cache_computed dist (_get_distance_between_junctions dist a b cache).2.
Proof.
  intros Hc. unfold _get_distance_between_junctions.
  destruct (cache !! ({[a; b]} : gset Junction)) as [v|] eqn:E; simpl; [done|].
  intros k v Hk. destruct (decide (k = {[a; b]})) as [->|Hne].
  - rewrite lookup_insert_eq in Hk. inversion Hk; subst. by exists a, b.
  - rewrite lookup_insert_ne in Hk by done. by apply Hc.
Qed.

(** X26. The cache of an MSTAirDist instance only ever holds computed
    distances: this is so for the empty cache of a new instance, and every
    estimate, at any state, keeps it so; each cached value is the air
    distance of the two junctions of its key, taken in one order or the
    other. *)
Theorem instance_cache_always_computed :
  cache_computed dist MSTAirDistHeuristic__init__ /\
  (forall (p : Problem) (s : State) (cache : gmap (gset Junction) Q),
      cache_computed dist cache ->
      cache_computed dist (MSTAirDistHeuristic_estimate dist p s cache).2).
Proof.
  split.
  - intros k v Hk. unfold MSTAirDistHeuristic__init__ in Hk.
    by rewrite lookup_empty in Hk.
  - intros p s cache Hc.
    unfold MSTAirDistHeuristic_estimate, _calculate_junctions_air_dist_mst_weight.
    set (js := elements (drop_points p ∖ dropped_so_far s ∪ {[current_location s]})).
    assert (Hend : cache_computed dist (fill_distances_matrix dist js cache).1).
    { unfold fill_distances_matrix.
      apply (foldl_seq_invariant
               (fun (_ : nat) (st : gmap (gset Junction) Q * list (list Q)) =>
                  cache_computed dist st.1)); [done|].
      intros i st _ Hst. unfold fill_row.
      apply (foldl_seq_invariant
               (fun (_ : nat) (st : gmap (gset Junction) Q * list (list Q)) =>
                  cache_computed dist st.1)); [done|].
      intros j st' _ Hst'. unfold fill_entry.
      destruct (decide (i = j)); [done|].
      destruct (js !! i) as [a|]; [|done]. destruct (js !! j) as [b|]; [|done].
      pose proof (get_distance_keeps_computed a b st'.1 Hst') as Hk.
      by destruct (_get_distance_between_junctions dist a b st'.1). }
    by destruct (fill_distances_matrix dist js cache).
Qed.

End InstanceCache.
